(** * px4esc firmware: board support and FOC task primitives

    A shallow embedding of

      - [firmware/src/foc/common.hpp]: [CompleteParameterSet], [EventCounter]
        and the unit-conversion functions;
      - [firmware/src/board/board.cpp]: [readUniqueID],
        [tryReadDeviceSignature], [setLEDRGB], [applicationHaltHook] and the
        [BeepingTask] class that follows them in the same file.

    Conventions of the embedding.

      - [math::Scalar] is a typedef of [math/math.hpp], which is not among
        the sources.  The scalar type and its arithmetic are therefore taken
        as an interface, [ScalarOps]; every function is written once over
        that interface, in the order of evaluation of the C++ expression.
        Properties that only depend on the control flow are proved for every
        implementation of the interface.  The literals of the sources
        ([1.0F], [20.0F], ...) show the scalar to be a [float]: the instance
        [binary32_ops] is IEEE 754 single precision with round to nearest,
        ties to even, from [SpecFloat].  The instance [Q_ops] is exact
        arithmetic over the rationals.  A property that depends on the laws
        of arithmetic is stated for every implementation under the accuracy
        it needs of the operations involved, or for exact arithmetic where
        it says what the formula computes before rounding.
      - [unsigned] is a 32-bit and [std::uint64_t] a 64-bit integer, as [Z]
        with the wrap-around written out.
      - A method that may write to its object returns the new object next to
        its result; [const] methods are functions of the object.
      - [assert(false); return 0;] is the outcome [AssertionFailed 0]: the
        assertion fires, and 0 is what the caller receives where assertions
        are compiled out. *)

From Stdlib Require Import ZArith QArith Qpower Bool List Lia Lqa.
From Stdlib Require Import Strings.Byte SpecFloat.
Import ListNotations.

Local Open Scope Z_scope.

(** ** Scalars *)

(** The operations of [math::Scalar] that the sources use.  [Sle a b] is the
    C++ [a <= b] (and [b >= a]), [Slt a b] is [a < b] (and [b > a]);
    [Sof_Z n] is the conversion [Scalar(n)] of an integer, which also reads
    the integer-valued literals ([20.0F], [3.0F], ...); [Sof_Q q] reads a
    decimal literal.  [Pi] is [math::Pi], a constant of [math/math.hpp]. *)
Class ScalarOps (Scalar : Type) : Type := {
  Sof_Z : Z -> Scalar;
  Sof_Q : Q -> Scalar;
  Sadd : Scalar -> Scalar -> Scalar;
  Ssub : Scalar -> Scalar -> Scalar;
  Smul : Scalar -> Scalar -> Scalar;
  Sdiv : Scalar -> Scalar -> Scalar;
  Sle : Scalar -> Scalar -> bool;
  Slt : Scalar -> Scalar -> bool;
  Pi : Scalar
}.

Declare Scope scalar_scope.
Delimit Scope scalar_scope with S.
Infix "+" := Sadd : scalar_scope.
Infix "-" := Ssub : scalar_scope.
Infix "*" := Smul : scalar_scope.
Infix "/" := Sdiv : scalar_scope.
Infix "<=?" := Sle : scalar_scope.
Infix "<?" := Slt : scalar_scope.

(** Exact arithmetic: the rationals, with [pi] standing for [math::Pi]. *)
Definition Q_ops (pi : Q) : ScalarOps Q := {|
  Sof_Z := inject_Z;
  Sof_Q := fun q => q;
  Sadd := Qplus;
  Ssub := Qminus;
  Smul := Qmult;
  Sdiv := Qdiv;
  Sle := Qle_bool;
  Slt := fun a b => negb (Qle_bool b a);
  Pi := pi
|}.

(** The value of [math::Pi] to sixteen digits, for concrete runs. *)
Definition Pi_decimal : Q := 3141592653589793 # 1000000000000000.

Definition exact_ops : ScalarOps Q := Q_ops Pi_decimal.

(** ** IEEE 754 single precision *)

(** The arithmetic of a C++ [float]: binary32 with round to nearest, ties
    to even, as the operations of [SpecFloat] at 24 bits of precision and
    exponents up to 128. *)
Definition binary32 : Type := spec_float.

(** [Scalar(n)]: the conversion of an integer. *)
Definition b32_of_Z (z : Z) : binary32 := binary_normalize 24 128 z 0 false.

(** The quotient of two integers, rounded once into the given format. *)
Definition round_Q (prec emax : Z) (q : Q) : spec_float :=
  match Qnum q with
  | Z0 => S754_zero false
  | Zpos n =>
      let '(m, e, l) :=
        SFdiv_core_binary prec emax (Zpos n) 0 (Zpos (Qden q)) 0 in
      binary_round_aux prec emax false m e l
  | Zneg n =>
      let '(m, e, l) :=
        SFdiv_core_binary prec emax (Zpos n) 0 (Zpos (Qden q)) 0 in
      binary_round_aux prec emax true m e l
  end.

(** [Scalar(d)] for a decimal literal [d]: the literal is a [double], so it
    is rounded to binary64 first and from there to binary32. *)
Definition b32_of_Q (q : Q) : binary32 :=
  match round_Q 53 1024 q with
  | S754_finite s m e => binary_round 24 128 s m e
  | x => x
  end.

Definition binary32_ops : ScalarOps binary32 := {|
  Sof_Z := b32_of_Z;
  Sof_Q := b32_of_Q;
  Sadd := SFadd 24 128;
  Ssub := SFsub 24 128;
  Smul := SFmul 24 128;
  Sdiv := SFdiv 24 128;
  Sle := SFleb;
  Slt := SFltb;
  Pi := b32_of_Q Pi_decimal
|}.

(** The number a binary32 value stands for; the infinities and NaN stand
    for no number and are given 0. *)
Definition b32_value (x : binary32) : Q :=
  match x with
  | S754_finite s m e =>
      ((if s then - (1) else 1) * inject_Z (Zpos m) * 2 ^ e)%Q
  | _ => 0%Q
  end.

(** The unit roundoff of binary32, 2^-24. *)
Definition unit_roundoff : Q := 1 # 16777216.

(** ** Outcome of a function guarded by [assert] *)

(** [Returned v]: the function returned [v] without failing an assertion.
    [AssertionFailed v]: [assert(false)] was reached; [v] is the value of
    the [return] statement behind it. *)
Inductive Checked (A : Type) : Type :=
| Returned (v : A)
| AssertionFailed (v : A).
Arguments Returned {A} v.
Arguments AssertionFailed {A} v.

(** ** namespace math *)
Module math.
Section Math.
Context {Scalar : Type} {ops : ScalarOps Scalar}.

(** Modelled from the spec: [math::Range<>], declared in [math/math.hpp]:
    a band given by its two ends. *)
Record Range : Type := mkRange { Range_min : Scalar; Range_max : Scalar }.

(** Modelled from the spec: [math::Range<>::constrain], declared in
    [math/math.hpp]; the spec calls its result the input clamped into the
    band: the lower end for an input below it, the upper end for an input
    above it, and the input itself otherwise. *)
Definition constrain (r : Range) (value : Scalar) : Scalar :=
  if (value <? Range_min r)%S then Range_min r
  else if (Range_max r <? value)%S then Range_max r
  else value.

(** [Vector<3>], with [Zero()] and the write [v[i] = x]. *)
Record Vector3 : Type := mkVector3 { v0 : Scalar; v1 : Scalar; v2 : Scalar }.

Definition Zero : Vector3 := mkVector3 (Sof_Z 0) (Sof_Z 0) (Sof_Z 0).

(** An index outside 0..2 is undefined behaviour in the source; the model
    leaves the vector as it is. *)
Definition Vector3_set (v : Vector3) (i : Z) (x : Scalar) : Vector3 :=
  match i with
  | 0 => mkVector3 x (v1 v) (v2 v)
  | 1 => mkVector3 (v0 v) x (v2 v)
  | 2 => mkVector3 (v0 v) (v1 v) x
  | _ => v
  end.

Record Vector2 : Type := mkVector2 { a0 : Scalar; a1 : Scalar }.

End Math.
Arguments Range : clear implicits.
Arguments Vector3 : clear implicits.
Arguments Vector2 : clear implicits.
End math.

(** ** namespace board *)
Module board.

(** [DeviceSignature] is a [std::array] of bytes; its length is fixed by a
    header that is not among the sources, so any length is admitted. *)
Definition DeviceSignature : Type := list byte.

(** The range-for loop of [tryReadDeviceSignature], with its early return. *)
Fixpoint scan_signature (out_sign : DeviceSignature) : bool :=
  match out_sign with
  | [] => false
  | x :: rest =>
      if negb (Byte.eqb x xff) && negb (Byte.eqb x x00) then true
      else scan_signature rest
  end.

(** [tryReadDeviceSignature] copies the signature storage into [out_sign]
    and scans the copy; it returns the copy next to the flag. *)
Definition tryReadDeviceSignature (DeviceSignatureStorage : DeviceSignature)
  : DeviceSignature * bool :=
  let out_sign := DeviceSignatureStorage in
  (out_sign, scan_signature out_sign).

(** [UniqueID] is a [std::array] of bytes; its length is fixed by
    [board.hpp], which is not among the sources, so any length is
    admitted. *)
Definition UniqueID : Type := list byte.

(** [std::fill(first, last, value)] over a whole array. *)
Definition std_fill (bytes : list byte) (value : byte) : list byte :=
  map (fun _ => value) bytes.

(** The [n] bytes of memory that start at [address]. *)
Definition memory_bytes (memory : Z -> byte) (address : Z) (n : nat)
  : list byte :=
  map (fun i => memory (address + Z.of_nat i)) (seq 0 n).

(** [std::memcpy(dst, src, n)]: the first [n] bytes of [dst] are replaced by
    those of [src].  With [n] beyond the length of [dst] the call is
    undefined in the source; the model then hands back the [n] bytes
    alone. *)
Definition std_memcpy (dst src : list byte) (n : nat) : list byte :=
  firstn n src ++ skipn n dst.

(** [readUniqueID], from the contents [uninitialised] that the local array
    happens to have when it is declared and the contents of the memory. *)
Definition readUniqueID (uninitialised : UniqueID) (memory : Z -> byte)
  : UniqueID :=
  let bytes := std_fill uninitialised x00 in
  std_memcpy bytes (memory_bytes memory 0x1FFF7A10 12) 12.

(** The value of a [uint8_t] as an integer. *)
Definition uint8_value (b : byte) : Z := Z.of_N (Byte.to_N b).

(** The three compare registers of TIM3 that [setLEDRGB] writes. *)
Record LEDCompare : Type := mkLEDCompare { CCR2 : Z; CCR3 : Z; CCR4 : Z }.

(** [setLEDRGB]: the values it writes; each product is one of [unsigned]
    arithmetic. *)
Definition setLEDRGB (red green blue : byte) : LEDCompare :=
  let Multiplier := 257 in
  {| CCR2 := (uint8_value red * Multiplier) mod 2 ^ 32;
     CCR3 := (uint8_value green * Multiplier) mod 2 ^ 32;
     CCR4 := (uint8_value blue * Multiplier) mod 2 ^ 32 |}.

(** [os::applicationHaltHook]. *)
Definition applicationHaltHook : LEDCompare := setLEDRGB xff x00 x00.

Module motor.

(** [board::motor::Status] and [board::motor::PWMParameters] are declared in
    [board/motor.hpp]; these are the members the tasks read. *)
Record Status : Type := mkStatus { power_ok : bool }.

Record PWMParameters (Scalar : Type) : Type :=
  mkPWMParameters { period : Scalar }.
Arguments mkPWMParameters {Scalar} period.
Arguments period {Scalar} p.

End motor.
End board.

(** ** namespace foc *)
Module foc.
Import math board.motor.

(** *** [CompleteParameterSet] *)
Section ParameterSet.
Context {Scalar : Type}.

(** [ControllerParameters], [MotorParameters] and [ObserverParameters] are
    declared in headers that are not among the sources; each group and what
    it reports about its own validity is a parameter. *)
Variables ControllerParameters MotorParameters ObserverParameters : Type.
Variable controller_isValid : ControllerParameters -> bool.
Variable motor_isValid : MotorParameters -> bool.

Record CompleteParameterSet : Type := mkCompleteParameterSet {
  controller : ControllerParameters;
  motor : MotorParameters;
  observer : ObserverParameters;
  pwm : PWMParameters Scalar
}.

Definition isValid (s : CompleteParameterSet) : bool :=
  controller_isValid (controller s) && motor_isValid (motor s).

End ParameterSet.
Arguments controller {Scalar ControllerParameters MotorParameters
                      ObserverParameters} c.
Arguments motor {Scalar ControllerParameters MotorParameters
                 ObserverParameters} c.
Arguments observer {Scalar ControllerParameters MotorParameters
                    ObserverParameters} c.
Arguments pwm {Scalar ControllerParameters MotorParameters
               ObserverParameters} c.
Arguments isValid {Scalar ControllerParameters MotorParameters
                   ObserverParameters} controller_isValid motor_isValid s.

(** *** [EventCounter] *)

Definition uint64_modulus : Z := 2 ^ 64.

Record EventCounter : Type := mkEventCounter { cnt_ : Z }.

(** [std::uint64_t cnt_ = 0;] *)
Definition EventCounter_init : EventCounter := mkEventCounter 0.

(** [void increment() { cnt_++; }] *)
Definition increment (c : EventCounter) : unit * EventCounter :=
  (tt, mkEventCounter ((cnt_ c + 1) mod uint64_modulus)).

(** [std::uint64_t get() const { return cnt_; }] *)
Definition get (c : EventCounter) : Z := cnt_ c.

(** The values a [std::uint64_t] member can hold. *)
Definition EventCounter_wf (c : EventCounter) : Prop :=
  0 <= cnt_ c < uint64_modulus.

(** *** Unit conversions *)
Section Conversions.
Context {Scalar : Type} {ops : ScalarOps Scalar}.

(** [constexpr Scalar SquareRootOf3 = Scalar(1.7320508075688772);] *)
Definition SquareRootOf3 : Scalar :=
  Sof_Q (17320508075688772 # 10000000000000000).

Definition convertFluxLinkageToKV (flux_linkage : Scalar) (num_poles : Z)
  : Checked Scalar :=
  if (Sof_Z 0 <? flux_linkage)%S && (2 <=? num_poles) &&
     (num_poles mod 2 =? 0)
  then Returned ((Sof_Z 20 * SquareRootOf3) /
                 (Pi * flux_linkage * Sof_Z num_poles))%S
  else AssertionFailed (Sof_Z 0).

Definition convertKVToFluxLinkage (kv : Scalar) (num_poles : Z)
  : Checked Scalar :=
  if (Sof_Z 0 <? kv)%S && (2 <=? num_poles) && (num_poles mod 2 =? 0)
  then Returned ((Sof_Z 20 * SquareRootOf3) /
                 (Pi * kv * Sof_Z num_poles))%S
  else AssertionFailed (Sof_Z 0).

Definition convertAngularVelocityToRPM (radian_per_sec : Scalar) : Scalar :=
  ((radian_per_sec * Sof_Z 60) / (Pi * Sof_Z 2))%S.

Definition convertRotationRateElectricalToMechanical
  (rate : Scalar) (num_poles : Z) : Checked Scalar :=
  if (2 <=? num_poles) && (num_poles mod 2 =? 0)
  then Returned (rate / Sof_Z (num_poles / 2))%S
  else AssertionFailed (Sof_Z 0).

End Conversions.

(** *** [BeepingTask] *)

(** Modelled from the spec: [Result] and [Result::ExitCode], declared in
    [task.hpp]: the result of the slow-cadence check is one of in-progress,
    success and failure with an exit code. *)
Definition ExitCode : Type := Z.

Inductive Result : Type :=
| Result_inProgress
| Result_success
| Result_failure (exit_code : ExitCode).

Section Beeping.
Context {Scalar : Type} {ops : ScalarOps Scalar}.

(** Modelled from the spec: [TaskContext], declared in [task.hpp]; the
    task reads [context_.board.pwm.period] and nothing else of it. *)
Record TaskContext : Type := mkTaskContext {
  board_pwm : PWMParameters Scalar
}.

Definition DurationLimits : Range Scalar := mkRange (Sof_Z 0) (Sof_Z 3).
Definition FrequencyLimits : Range Scalar :=
  mkRange (Sof_Z 100) (Sof_Z 15000).

Definition ExitCodeBadHardwareStatus : ExitCode := 1.

Definition unsigned_modulus : Z := 2 ^ 32.

Record BeepingTask : Type := mkBeepingTask {
  context_ : TaskContext;
  excitation_period_ : Scalar;
  remaining_duration_ : Scalar;
  time_to_next_excitation_ : Scalar;
  next_phase_index_ : Z
}.

(** The constructor; [next_phase_index_] keeps its default initialiser. *)
Definition BeepingTask_new (context : TaskContext)
  (frequency duration : Scalar) : BeepingTask :=
  let excitation_period := (Sof_Z 1 / constrain FrequencyLimits frequency)%S in
  {| context_ := context;
     excitation_period_ := excitation_period;
     remaining_duration_ := constrain DurationLimits duration;
     time_to_next_excitation_ := excitation_period;
     next_phase_index_ := 0 |}.

Definition onMainIRQ (t : BeepingTask) (period : Scalar) (hw_status : Status)
  : Result * BeepingTask :=
  if negb (power_ok hw_status) then
    (Result_failure ExitCodeBadHardwareStatus, t)
  else if (remaining_duration_ t <=? Sof_Z 0)%S then
    (Result_success, t)
  else
    (Result_inProgress, t).

Definition onNextPWMPeriod (t : BeepingTask)
  (phase_currents_ab : Vector2 Scalar) (inverter_voltage : Scalar)
  : (Vector3 Scalar * bool) * BeepingTask :=
  if (Sof_Z 0 <=? remaining_duration_ t)%S then
    let pwm_period := period (board_pwm (context_ t)) in
    let remaining := (remaining_duration_ t - pwm_period)%S in
    let time_to_next := (time_to_next_excitation_ t - pwm_period)%S in
    if (time_to_next <=? Sof_Z 0)%S then
      let output :=
        Vector3_set Zero (next_phase_index_ t mod 3) (Sof_Z 1) in
      ((output, true),
       {| context_ := context_ t;
          excitation_period_ := excitation_period_ t;
          remaining_duration_ := remaining;
          time_to_next_excitation_ :=
            (time_to_next + excitation_period_ t)%S;
          next_phase_index_ :=
            (next_phase_index_ t + 1) mod unsigned_modulus |})
    else
      ((Zero, true),
       {| context_ := context_ t;
          excitation_period_ := excitation_period_ t;
          remaining_duration_ := remaining;
          time_to_next_excitation_ := time_to_next;
          next_phase_index_ := next_phase_index_ t |})
  else
    ((Zero, false), t).

(** The task after [n] PWM periods; the measurements are not read. *)
Fixpoint after_periods (n : nat) (t : BeepingTask)
  (inputs : nat -> Vector2 Scalar * Scalar) : BeepingTask :=
  match n with
  | O => t
  | S n' =>
      let t' := after_periods n' t inputs in
      snd (onNextPWMPeriod t' (fst (inputs n')) (snd (inputs n')))
  end.

(** What call number [k] (counting from 0) returns. *)
Definition output_at (k : nat) (t : BeepingTask)
  (inputs : nat -> Vector2 Scalar * Scalar) : Vector3 Scalar * bool :=
  fst (onNextPWMPeriod (after_periods k t inputs)
         (fst (inputs k)) (snd (inputs k))).

Definition driver_active_at (k : nat) (t : BeepingTask)
  (inputs : nat -> Vector2 Scalar * Scalar) : bool :=
  snd (output_at k t inputs).

(** The phase on which the call made in state [t] puts its pulse, if it
    emits one: the two tests of [onNextPWMPeriod], and the index it uses. *)
Definition pulse_phase (t : BeepingTask) : option Z :=
  if (Sof_Z 0 <=? remaining_duration_ t)%S then
    if (time_to_next_excitation_ t - period (board_pwm (context_ t))
        <=? Sof_Z 0)%S
    then Some (next_phase_index_ t mod 3)
    else None
  else None.

End Beeping.
Arguments TaskContext : clear implicits.
Arguments BeepingTask : clear implicits.

End foc.

Import math board board.motor foc.

(** * Statements and concrete inputs *)

(** The vector with 1 on phase [i] and 0 elsewhere. *)
Definition unit_vector {Scalar : Type} {ops : ScalarOps Scalar} (i : Z)
  : Vector3 Scalar :=
  Vector3_set Zero i (Sof_Z 1).

(** The statement that [isValid] holds exactly when all four groups report
    valid, for given groups and given validity reports. *)
Definition isValid_iff_all_four_groups
  (C M O : Type) (cv : C -> bool) (mv : M -> bool) (ov : O -> bool)
  (pv : PWMParameters Q -> bool) : Prop :=
  forall s : CompleteParameterSet (Scalar := Q) C M O,
    isValid cv mv s = true <->
    (cv (controller s) = true /\ mv (motor s) = true /\
     ov (observer s) = true /\ pv (pwm s) = true).

(** The statement that the signature is reported absent exactly when all
    its bytes are 0xFF or all its bytes are zero. *)
Definition absent_iff_all_ff_or_all_zero : Prop :=
  forall storage : DeviceSignature,
    snd (tryReadDeviceSignature storage) = false <->
    (Forall (fun x => x = xff) storage \/ Forall (fun x => x = x00) storage).

(** The statement that the driver is kept active up to, and not at, the
    call at which the elapsed time reaches the clamped duration.  The
    elapsed time at call number [k] (counting from 0) is that of the [k]
    periods before it, or of [k + 1] periods when the period of the call
    itself is counted. *)
Definition driver_released_once_elapsed_reaches_duration
  (count_current_period : bool) : Prop :=
  forall (pi : Q) (context : TaskContext Q) (frequency duration : Q)
         (inputs : nat -> Vector2 Q * Q) (k : nat),
    (0 < period (board_pwm context))%Q ->
    (driver_active_at (ops := Q_ops pi) k
       (BeepingTask_new (ops := Q_ops pi) context frequency duration) inputs
     = true <->
     (inject_Z (Z.of_nat k + (if count_current_period then 1 else 0))
        * period (board_pwm context)
      < constrain (ops := Q_ops pi) (DurationLimits (ops := Q_ops pi))
          duration)%Q).

(** A context with a PWM period of 50 microseconds, and one with a period
    of one second. *)
Definition pwm_20kHz : TaskContext Q :=
  mkTaskContext (mkPWMParameters (1 # 20000)).

Definition pwm_1s : TaskContext Q := mkTaskContext (mkPWMParameters 1%Q).

(** Measurements that are zero at every call. *)
Definition idle_inputs : nat -> Vector2 Q * Q :=
  fun _ => (mkVector2 0%Q 0%Q, 0%Q).

(** A task past its duration. *)
Definition exhausted_task : BeepingTask Q :=
  {| context_ := pwm_20kHz;
     excitation_period_ := 1 # 1000;
     remaining_duration_ := (- (1 # 20000))%Q;
     time_to_next_excitation_ := 1 # 2000;
     next_phase_index_ := 7 |}.

(** An erased region of 128 bytes whose first byte has been programmed to
    zero. *)
Definition mixed_signature : DeviceSignature := x00 :: repeat xff 127.

(** [increment] called [n] times in a row. *)
Definition increments (n : nat) (c : EventCounter) : EventCounter :=
  Nat.iter n (fun c' => snd (increment c')) c.

(** The number of calls among the first [k] that emitted a pulse. *)
Fixpoint pulses_before {Scalar : Type} {ops : ScalarOps Scalar} (k : nat)
  (t : BeepingTask Scalar) (inputs : nat -> Vector2 Scalar * Scalar) : Z :=
  match k with
  | O => 0
  | S k' =>
      pulses_before k' t inputs +
      match pulse_phase (after_periods k' t inputs) with
      | Some _ => 1
      | None => 0
      end
  end.

(** [approx] is [exact] up to the relative error [u]. *)
Definition accurate (u exact approx : Q) : Prop :=
  ((1 - u) * exact <= approx /\ approx <= (1 + u) * exact)%Q.

(** What is left of the clamped duration after [k] PWM periods have been
    subtracted from it one by one, in the arithmetic of the scalar type. *)
Definition remaining_after {Scalar : Type} {ops : ScalarOps Scalar}
  (clamped pwm_period : Scalar) (k : nat) : Scalar :=
  Nat.iter k (fun r => (r - pwm_period)%S) clamped.

(** The task [t] with the value [c] in its phase counter. *)
Definition with_counter {Scalar : Type} (t : BeepingTask Scalar) (c : Z)
  : BeepingTask Scalar :=
  {| context_ := context_ t;
     excitation_period_ := excitation_period_ t;
     remaining_duration_ := remaining_duration_ t;
     time_to_next_excitation_ := time_to_next_excitation_ t;
     next_phase_index_ := c |}.

(** The statement that, in single precision and on every run of a task set
    up by the constructor, of two pulses with no pulse between them the
    later one is on the next phase. *)
Definition round_robin_for_whole_life : Prop :=
  forall (context : TaskContext binary32) (frequency duration : binary32)
         (inputs : nat -> Vector2 binary32 * binary32) (j k : nat) (p q : Z),
    let t :=
      BeepingTask_new (ops := binary32_ops) context frequency duration in
    (j < k)%nat ->
    pulse_phase (ops := binary32_ops)
      (after_periods (ops := binary32_ops) j t inputs) = Some p ->
    (forall i : nat, (j < i < k)%nat ->
       pulse_phase (ops := binary32_ops)
         (after_periods (ops := binary32_ops) i t inputs) = None) ->
    pulse_phase (ops := binary32_ops)
      (after_periods (ops := binary32_ops) k t inputs) = Some q ->
    q = (p + 1) mod 3.

(** The statement that, in single precision, the round trip from a flux
    linkage to a KV and back passes both checks and returns the flux
    linkage up to a relative error of [tolerance], for every positive flux
    linkage and every even pole count of at least 2. *)
Definition round_trip_within (tolerance : Q) : Prop :=
  forall (f : binary32) (p : Z),
    Slt (ScalarOps := binary32_ops) (Sof_Z (ScalarOps := binary32_ops) 0) f
      = true ->
    2 <= p -> Z.even p = true ->
    exists kv back : binary32,
      convertFluxLinkageToKV (ops := binary32_ops) f p = Returned kv /\
      convertKVToFluxLinkage (ops := binary32_ops) kv p = Returned back /\
      accurate tolerance (b32_value f) (b32_value back).

(** Contexts with PWM periods of [0.04F] and [0.2F] seconds, in single
    precision. *)
Definition b32_pwm_25Hz : TaskContext binary32 :=
  mkTaskContext (mkPWMParameters (b32_of_Q (4 # 100))).

Definition b32_pwm_5Hz : TaskContext binary32 :=
  mkTaskContext (mkPWMParameters (b32_of_Q (2 # 10))).

(** The flux linkage 2^127. *)
Definition flux_2_127 : binary32 := S754_finite false 8388608 104.

(** A context with a PWM period of 50 microseconds, in single precision. *)
Definition b32_pwm_20kHz : TaskContext binary32 :=
  mkTaskContext (mkPWMParameters (b32_of_Q (1 # 20000))).

(** A context with a PWM period of 2^-23 s, about 119 ns: half the spacing
    of the single-precision numbers next to 3. *)
Definition pwm_2_23 : TaskContext binary32 :=
  mkTaskContext (mkPWMParameters (S754_finite false 8388608 (-46))).

(** The task the constructor sets up in that context for a tone of 8192 Hz
    and a duration of 3 s. *)
Definition tone_task : BeepingTask binary32 :=
  BeepingTask_new (ops := binary32_ops) pwm_2_23 (b32_of_Z 8192)
    (b32_of_Z 3).

(** Measurements that are zero at every call, in single precision. *)
Definition b32_idle_inputs : nat -> Vector2 binary32 * binary32 :=
  fun _ => (mkVector2 (S754_zero false) (S754_zero false), S754_zero false).

(** Whether call number [r] of [tone_task] emits no pulse. *)
Definition is_quiet (r : nat) : bool :=
  match pulse_phase (ops := binary32_ops)
          (after_periods (ops := binary32_ops) r tone_task
             b32_idle_inputs) with
  | None => true
  | Some _ => false
  end.

(** 2^32 - 1, as a number of calls. *)
Definition cycles_before_wrap : nat := Z.to_nat (2 ^ 32 - 1).

(** * Properties *)

(** ** [CompleteParameterSet::isValid] *)

(** C1, counterexample: with groups that are a single validity flag each, a
    set whose observer group is invalid passes [isValid]. *)
Lemma isValid_ignores_observer_and_pwm :
  isValid (Scalar := Q) (ObserverParameters := bool)
    (fun c : bool => c) (fun m : bool => m)
    (mkCompleteParameterSet bool bool bool true true false
       (mkPWMParameters (1 # 20000))) = true /\
  ~ isValid_iff_all_four_groups bool bool bool
      (fun c => c) (fun m => m) (fun o => o) (fun _ => true).
Proof.
  split; [reflexivity|].
  intros H.
  destruct (H (mkCompleteParameterSet bool bool bool true true false
                 (mkPWMParameters (1 # 20000)))) as [H1 _].
  destruct (H1 eq_refl) as (_ & _ & Ho & _).
  discriminate Ho.
Qed.

(** C1, amended: [isValid] returns true if and only if the controller group
    and the motor group report valid; the observer and PWM groups are not
    consulted. *)
Theorem isValid_iff_controller_and_motor :
  forall (Scalar C M O : Type) (cv : C -> bool) (mv : M -> bool)
         (s : CompleteParameterSet (Scalar := Scalar) C M O),
    (isValid cv mv s = true <->
     cv (controller s) = true /\ mv (motor s) = true) /\
    (forall (o : O) (p : PWMParameters Scalar),
       isValid cv mv (mkCompleteParameterSet C M O
                        (controller s) (motor s) o p) = isValid cv mv s).
Proof.
  intros Scalar C M O cv mv s. split.
  - unfold isValid. apply andb_true_iff.
  - intros o p. reflexivity.
Qed.

(** ** [BeepingTask::onMainIRQ] *)

(** C2: whatever the task state, a status with [power_ok] false gives
    failure with [ExitCodeBadHardwareStatus]; with [power_ok] true the
    result is success when the remaining duration is [<= 0] and in-progress
    when it is not.  The task is left as it was. *)
Theorem onMainIRQ_result :
  forall (Scalar : Type) (ops : ScalarOps Scalar)
         (t : BeepingTask Scalar) (period : Scalar) (hw_status : Status),
    (power_ok hw_status = false ->
     onMainIRQ t period hw_status =
       (Result_failure ExitCodeBadHardwareStatus, t)) /\
    (power_ok hw_status = true ->
     (remaining_duration_ t <=? Sof_Z 0)%S = true ->
     onMainIRQ t period hw_status = (Result_success, t)) /\
    (power_ok hw_status = true ->
     (remaining_duration_ t <=? Sof_Z 0)%S = false ->
     onMainIRQ t period hw_status = (Result_inProgress, t)) /\
    ExitCodeBadHardwareStatus = 1.
Proof.
  intros Scalar ops t period hw_status. unfold onMainIRQ.
  repeat split.
  - intros ->. reflexivity.
  - intros -> ->. reflexivity.
  - intros -> ->. reflexivity.
Qed.

(** [onMainIRQ] on a task past its duration, with and without power. *)
Lemma onMainIRQ_result_witness :
  onMainIRQ (ops := exact_ops) exhausted_task (1 # 1000) (mkStatus false) =
    (Result_failure 1, exhausted_task) /\
  onMainIRQ (ops := exact_ops) exhausted_task (1 # 1000) (mkStatus true) =
    (Result_success, exhausted_task).
Proof.
  destruct (onMainIRQ_result Q exact_ops exhausted_task (1 # 1000)
              (mkStatus false)) as (Hfail & _).
  destruct (onMainIRQ_result Q exact_ops exhausted_task (1 # 1000)
              (mkStatus true)) as (_ & Hsucc & _).
  split.
  - apply Hfail. reflexivity.
  - apply Hsucc; reflexivity.
Defined.

(** ** [tryReadDeviceSignature] *)

(** C8, counterexample: a region that mixes 0x00 and 0xFF bytes is neither
    all 0xFF nor all zero, and is reported absent. *)
Lemma mixed_signature_reported_absent :
  snd (tryReadDeviceSignature mixed_signature) = false /\
  ~ Forall (fun x => x = xff) mixed_signature /\
  ~ Forall (fun x => x = x00) mixed_signature /\
  ~ absent_iff_all_ff_or_all_zero.
Proof.
  assert (Hff : ~ Forall (fun x => x = xff) mixed_signature).
  { intros H. inversion H as [|? ? Hx _]. discriminate Hx. }
  assert (H00 : ~ Forall (fun x => x = x00) mixed_signature).
  { intros H. inversion H as [|? ? _ Hr].
    inversion Hr as [|? ? Hx _]. discriminate Hx. }
  repeat split; try assumption; try reflexivity.
  intros H. destruct (H mixed_signature) as [H1 _].
  destruct (H1 eq_refl); contradiction.
Qed.

Lemma scan_signature_false_iff :
  forall s : DeviceSignature,
    scan_signature s = false <-> Forall (fun x => x = xff \/ x = x00) s.
Proof.
  induction s as [|x rest IH]; simpl.
  - split; [constructor | reflexivity].
  - destruct (Byte.eqb x xff) eqn:Eff; simpl.
    + apply Byte.byte_dec_bl in Eff. rewrite IH. split.
      * intros H. constructor; [left; exact Eff | exact H].
      * intros H. inversion H; assumption.
    + destruct (Byte.eqb x x00) eqn:E00; simpl.
      * apply Byte.byte_dec_bl in E00. rewrite IH. split.
        -- intros H. constructor; [right; exact E00 | exact H].
        -- intros H. inversion H; assumption.
      * split; [discriminate|].
        intros H. inversion H as [|? ? [Hx|Hx] _]; subst x;
          discriminate.
Qed.

(** C8, amended: the signature is reported absent exactly when every byte of
    the region is 0xFF or 0x00, each byte on its own; any byte with another
    value makes it present.  The bytes handed back are those of the
    storage. *)
Theorem tryReadDeviceSignature_absent_iff :
  forall storage : DeviceSignature,
    fst (tryReadDeviceSignature storage) = storage /\
    (snd (tryReadDeviceSignature storage) = false <->
     Forall (fun x => x = xff \/ x = x00) storage) /\
    (snd (tryReadDeviceSignature storage) = true <->
     Exists (fun x => x <> xff /\ x <> x00) storage).
Proof.
  intros storage. unfold tryReadDeviceSignature; simpl.
  split; [reflexivity|]. split.
  - apply scan_signature_false_iff.
  - rewrite <- not_false_iff_true, scan_signature_false_iff.
    rewrite <- Exists_Forall_neg.
    + split; intros H; apply Exists_exists in H; apply Exists_exists;
        destruct H as (x & Hin & Hx); exists x; (split; [exact Hin|]).
      * split; intros E; apply Hx; auto.
      * intros [E|E]; destruct Hx; contradiction.
    + intros x. destruct (Byte.byte_eq_dec x xff) as [E|E];
        [left; left; exact E|].
      destruct (Byte.byte_eq_dec x x00) as [E'|E'];
        [left; right; exact E'|].
      right. intros [H|H]; contradiction.
Qed.

(** ** [EventCounter] *)

(** C10: [increment] stores the count plus one modulo 2^64 and [get] reads
    the stored count; the count read after an increment is larger than the
    one before exactly when the counter was below 2^64 - 1, and it is 0 when
    the counter was at 2^64 - 1. *)
Theorem EventCounter_increment_get :
  forall c : EventCounter,
    EventCounter_wf c ->
    let c' := snd (increment c) in
    get c = cnt_ c /\
    get c' = (get c + 1) mod 2 ^ 64 /\
    EventCounter_wf c' /\
    (get c < 2 ^ 64 - 1 -> get c' = get c + 1) /\
    (get c < get c' <-> get c < 2 ^ 64 - 1) /\
    (get c = 2 ^ 64 - 1 -> get c' = 0).
Proof.
  intros [n] Hwf. unfold EventCounter_wf, uint64_modulus in Hwf.
  simpl in Hwf. unfold increment, get, EventCounter_wf, uint64_modulus.
  cbn [snd cnt_].
  assert (Hlt : n < 2 ^ 64 - 1 -> (n + 1) mod 2 ^ 64 = n + 1).
  { intros H. apply Z.mod_small. lia. }
  assert (Hmax : n = 2 ^ 64 - 1 -> (n + 1) mod 2 ^ 64 = 0).
  { intros ->. reflexivity. }
  repeat split.
  - apply Z.mod_pos_bound. lia.
  - apply Z.mod_pos_bound. lia.
  - exact Hlt.
  - intros H. destruct (Z.eq_dec n (2 ^ 64 - 1)) as [E|E]; [|lia].
    rewrite (Hmax E) in H. lia.
  - intros H. rewrite (Hlt H). lia.
  - exact Hmax.
Qed.

(** The counter at its largest value, and the fresh counter. *)
Lemma EventCounter_increment_get_witness :
  get (snd (increment (mkEventCounter (2 ^ 64 - 1)))) = 0 /\
  get (snd (increment EventCounter_init)) = 1.
Proof.
  split.
  - apply (EventCounter_increment_get (mkEventCounter (2 ^ 64 - 1))).
    + unfold EventCounter_wf, uint64_modulus. simpl. lia.
    + reflexivity.
  - apply (EventCounter_increment_get EventCounter_init).
    + unfold EventCounter_wf, uint64_modulus. simpl. lia.
    + simpl. lia.
Defined.

(** ** Unit conversions: precondition on the pole count *)

(** C7, counterexample: [convertAngularVelocityToRPM] takes no pole count
    and has no assertion; in exact arithmetic it returns a value other than
    zero for one radian per second. *)
Lemma convertAngularVelocityToRPM_not_zero :
  ~ (convertAngularVelocityToRPM (ops := exact_ops) 1%Q == 0)%Q.
Proof.
  intros H. vm_compute in H. discriminate H.
Qed.

Lemma pole_count_rejected :
  forall num_poles : Z,
    num_poles < 2 \/ Z.odd num_poles = true ->
    (2 <=? num_poles) && (num_poles mod 2 =? 0) = false.
Proof.
  intros n [H|H].
  - apply andb_false_iff. left. apply Z.leb_gt. exact H.
  - apply andb_false_iff. right. apply Z.eqb_neq.
    rewrite Zmod_odd, H. discriminate.
Qed.

(** C7, amended: for a pole count that is odd or less than 2, each of the
    three conversions that take a pole count ([convertFluxLinkageToKV],
    [convertKVToFluxLinkage],
    [convertRotationRateElectricalToMechanical]) fails its assertion and
    returns zero, whatever its other argument.
    [convertAngularVelocityToRPM] takes no pole count and checks nothing:
    it returns its argument times 60 over two Pi. *)
Theorem conversions_reject_bad_pole_count :
  forall (Scalar : Type) (ops : ScalarOps Scalar) (num_poles : Z),
    num_poles < 2 \/ Z.odd num_poles = true ->
    forall x : Scalar,
      convertFluxLinkageToKV x num_poles = AssertionFailed (Sof_Z 0) /\
      convertKVToFluxLinkage x num_poles = AssertionFailed (Sof_Z 0) /\
      convertRotationRateElectricalToMechanical x num_poles =
        AssertionFailed (Sof_Z 0) /\
      convertAngularVelocityToRPM x = ((x * Sof_Z 60) / (Pi * Sof_Z 2))%S.
Proof.
  intros Scalar ops n Hn x.
  pose proof (pole_count_rejected n Hn) as Hrej.
  unfold convertFluxLinkageToKV, convertKVToFluxLinkage,
    convertRotationRateElectricalToMechanical.
  rewrite <- !andb_assoc, Hrej, !andb_false_r.
  repeat split.
Qed.

(** Pole counts 7, 0 and 1. *)
Lemma conversions_reject_bad_pole_count_witness :
  convertFluxLinkageToKV (ops := exact_ops) (1 # 100) 7 = AssertionFailed 0%Q /\
  convertKVToFluxLinkage (ops := exact_ops) 920%Q 0 = AssertionFailed 0%Q /\
  convertRotationRateElectricalToMechanical (ops := exact_ops) 100%Q 1 =
    AssertionFailed 0%Q.
Proof.
  split; [|split].
  - apply (conversions_reject_bad_pole_count Q exact_ops 7).
    right. reflexivity.
  - apply (conversions_reject_bad_pole_count Q exact_ops 0).
    left. lia.
  - apply (conversions_reject_bad_pole_count Q exact_ops 1).
    left. lia.
Defined.

(** ** [BeepingTask::onNextPWMPeriod]: the shape of the output *)

(** C9: in every state and for every input, the vector returned by
    [onNextPWMPeriod] is the zero vector or has 1 on one phase and 0 on the
    other two; each component is therefore 0 or 1, and in exact arithmetic
    lies between 0 and 1. *)
Theorem onNextPWMPeriod_output_shape :
  (forall (Scalar : Type) (ops : ScalarOps Scalar) (t : BeepingTask Scalar)
          (phase_currents_ab : Vector2 Scalar) (inverter_voltage : Scalar),
     let out := fst (fst (onNextPWMPeriod t phase_currents_ab
                            inverter_voltage)) in
     out = mkVector3 (Sof_Z 0) (Sof_Z 0) (Sof_Z 0) \/
     out = mkVector3 (Sof_Z 1) (Sof_Z 0) (Sof_Z 0) \/
     out = mkVector3 (Sof_Z 0) (Sof_Z 1) (Sof_Z 0) \/
     out = mkVector3 (Sof_Z 0) (Sof_Z 0) (Sof_Z 1)) /\
  (forall (pi : Q) (t : BeepingTask Q)
          (phase_currents_ab : Vector2 Q) (inverter_voltage : Q),
     let out := fst (fst (onNextPWMPeriod (ops := Q_ops pi) t
                            phase_currents_ab inverter_voltage)) in
     (0 <= v0 out <= 1 /\ 0 <= v1 out <= 1 /\ 0 <= v2 out <= 1)%Q).
Proof.
  assert (Hshape :
    forall (Scalar : Type) (ops : ScalarOps Scalar) (t : BeepingTask Scalar)
           (phase_currents_ab : Vector2 Scalar) (inverter_voltage : Scalar),
      let out := fst (fst (onNextPWMPeriod t phase_currents_ab
                             inverter_voltage)) in
      out = mkVector3 (Sof_Z 0) (Sof_Z 0) (Sof_Z 0) \/
      out = mkVector3 (Sof_Z 1) (Sof_Z 0) (Sof_Z 0) \/
      out = mkVector3 (Sof_Z 0) (Sof_Z 1) (Sof_Z 0) \/
      out = mkVector3 (Sof_Z 0) (Sof_Z 0) (Sof_Z 1)).
  { intros Scalar ops t ab v. unfold onNextPWMPeriod.
    destruct (Sof_Z 0 <=? remaining_duration_ t)%S; [|left; reflexivity].
    destruct (_ <=? Sof_Z 0)%S; [|left; reflexivity].
    cbn [fst].
    pose proof (Z.mod_pos_bound (next_phase_index_ t) 3 eq_refl) as Hb.
    assert (Hc : next_phase_index_ t mod 3 = 0 \/
                 next_phase_index_ t mod 3 = 1 \/
                 next_phase_index_ t mod 3 = 2) by lia.
    destruct Hc as [-> | [-> | ->]]; right;
      [left | right; left | right; right]; reflexivity. }
  split; [exact Hshape|].
  intros pi t ab v.
  destruct (Hshape Q (Q_ops pi) t ab v) as [H | [H | [H | H]]];
    cbv zeta; rewrite H; cbn; repeat split; discriminate.
Qed.

(** ** Exact arithmetic: comparisons and the clamp *)

Lemma Q_Slt_true (pi a b : Q) :
  (Slt (ScalarOps := Q_ops pi) a b = true) <-> (a < b)%Q.
Proof.
  cbn. rewrite negb_true_iff, <- not_true_iff_false, Qle_bool_iff.
  split; [apply Qnot_le_lt | apply Qlt_not_le].
Qed.

Lemma Q_Slt_false (pi a b : Q) :
  (Slt (ScalarOps := Q_ops pi) a b = false) <-> (b <= a)%Q.
Proof.
  cbn. rewrite negb_false_iff. apply Qle_bool_iff.
Qed.

Lemma Q_Sle_true (pi a b : Q) :
  (Sle (ScalarOps := Q_ops pi) a b = true) <-> (a <= b)%Q.
Proof. cbn. apply Qle_bool_iff. Qed.

Lemma Q_Sle_false (pi a b : Q) :
  (Sle (ScalarOps := Q_ops pi) a b = false) <-> (b < a)%Q.
Proof.
  cbn. rewrite <- not_true_iff_false, Qle_bool_iff.
  split; [apply Qnot_le_lt | apply Qlt_not_le].
Qed.

(** In exact arithmetic [constrain] is the clamp: the result lies in the
    band, and it is the input when the input lies in the band. *)
Lemma Q_constrain_cases (pi lo hi x : Q) :
  (lo <= hi)%Q ->
  let y := constrain (ops := Q_ops pi) (mkRange lo hi) x in
  ((x < lo)%Q /\ y = lo) \/
  ((hi < x)%Q /\ y = hi) \/
  ((lo <= x <= hi)%Q /\ y = x).
Proof.
  intros Hband. unfold constrain. cbn [Range_min Range_max].
  destruct (Slt (ScalarOps := Q_ops pi) x lo) eqn:E1.
  - left. apply Q_Slt_true in E1. split; [exact E1 | reflexivity].
  - apply Q_Slt_false in E1.
    destruct (Slt (ScalarOps := Q_ops pi) hi x) eqn:E2.
    + right; left. apply Q_Slt_true in E2. split; [exact E2 | reflexivity].
    + right; right. apply Q_Slt_false in E2. repeat split; assumption.
Qed.

Lemma Qmult_le_nonneg_l (a b c : Q) :
  (0 <= a)%Q -> (b <= c)%Q -> (a * b <= a * c)%Q.
Proof.
  intros Ha Hbc. rewrite (Qmult_comm a b), (Qmult_comm a c).
  apply Qmult_le_compat_r; assumption.
Qed.

Lemma Q_constrain_in_band (pi lo hi x : Q) :
  (lo <= hi)%Q ->
  (lo <= constrain (ops := Q_ops pi) (mkRange lo hi) x <= hi)%Q.
Proof.
  intros Hband.
  destruct (Q_constrain_cases pi lo hi x Hband) as
    [[H ->] | [[H ->] | [H ->]]]; lra.
Qed.

(** ** [BeepingTask]: the excitation period *)

(** C5: whatever the requested frequency, the excitation period set by the
    constructor is one over the frequency passed through
    [FrequencyLimits.constrain]; in exact arithmetic that frequency lies in
    [100, 15000], and for a request outside the band the period differs from
    one over the request. *)
Theorem excitation_period_inverse_of_clamped :
  (forall (Scalar : Type) (ops : ScalarOps Scalar)
          (context : TaskContext Scalar) (frequency duration : Scalar),
     excitation_period_ (BeepingTask_new context frequency duration) =
       (Sof_Z 1 / constrain FrequencyLimits frequency)%S /\
     time_to_next_excitation_ (BeepingTask_new context frequency duration) =
       (Sof_Z 1 / constrain FrequencyLimits frequency)%S) /\
  (forall (pi : Q) (context : TaskContext Q) (frequency duration : Q),
     let clamped :=
       constrain (ops := Q_ops pi) (FrequencyLimits (ops := Q_ops pi))
         frequency in
     let t := BeepingTask_new (ops := Q_ops pi) context frequency duration in
     (100 <= clamped <= 15000)%Q /\
     (excitation_period_ t == 1 / clamped)%Q /\
     ((100 <= frequency <= 15000)%Q -> clamped = frequency) /\
     ((frequency < 100)%Q -> clamped = 100%Q) /\
     ((15000 < frequency)%Q -> clamped = 15000%Q) /\
     ((frequency < 100 \/ 15000 < frequency)%Q ->
      ~ (excitation_period_ t == 1 / frequency)%Q)).
Proof.
  split.
  - intros Scalar ops context frequency duration. split; reflexivity.
  - intros pi context frequency duration clamped t.
    assert (Hband : (inject_Z 100 <= inject_Z 15000)%Q) by (compute; discriminate).
    pose proof (Q_constrain_cases pi (inject_Z 100) (inject_Z 15000)
                  frequency Hband) as Hcases.
    change (constrain (ops := Q_ops pi) (mkRange (inject_Z 100)
              (inject_Z 15000)) frequency) with clamped in Hcases.
    change (inject_Z 100) with 100%Q in Hcases.
    change (inject_Z 15000) with 15000%Q in Hcases.
    assert (Hinv : forall a b : Q, (1 / a == 1 / b)%Q -> (a == b)%Q).
    { intros a b H. unfold Qdiv in H. rewrite !Qmult_1_l in H.
      rewrite <- (Qinv_involutive a), <- (Qinv_involutive b), H.
      reflexivity. }
    assert (Hper : (excitation_period_ t == 1 / clamped)%Q) by reflexivity.
    split; [|split; [exact Hper|]].
    { cbv zeta in Hcases.
      destruct Hcases as [[H ->] | [[H ->] | [H ->]]]; lra. }
    cbv zeta in Hcases.
    repeat split.
    + intros Hin. destruct Hcases as [[H E] | [[H E] | [H E]]];
        [lra | lra | exact E].
    + intros Hlo. destruct Hcases as [[H E] | [[H E] | [H E]]];
        [exact E | lra | lra].
    + intros Hhi. destruct Hcases as [[H E] | [[H E] | [H E]]];
        [lra | exact E | lra].
    + intros Hout Heq. rewrite Hper in Heq. apply Hinv in Heq.
      destruct Hcases as [[H E] | [[H E] | [H E]]]; rewrite E in Heq; lra.
Qed.

(** A request for 20 kHz gives the period of 15 kHz. *)
Lemma excitation_period_inverse_of_clamped_witness :
  (excitation_period_
     (BeepingTask_new (ops := exact_ops)
        (mkTaskContext (mkPWMParameters (1 # 20000))) 20000%Q 1%Q)
   == 1 # 15000)%Q /\
  ~ (excitation_period_
       (BeepingTask_new (ops := exact_ops)
          (mkTaskContext (mkPWMParameters (1 # 20000))) 20000%Q 1%Q)
     == 1 / 20000)%Q.
Proof.
  destruct excitation_period_inverse_of_clamped as [_ H].
  destruct (H Pi_decimal (mkTaskContext (mkPWMParameters (1 # 20000)))
              20000%Q 1%Q) as (_ & Hper & _ & _ & Hhi & Hne).
  split.
  - cbv zeta in Hper, Hhi. rewrite Hper, Hhi; [reflexivity|].
    reflexivity.
  - apply Hne. right. reflexivity.
Defined.

(** ** Unit conversions: flux linkage and KV *)

Lemma pole_count_accepted :
  forall num_poles : Z,
    2 <= num_poles -> Z.even num_poles = true ->
    (2 <=? num_poles) && (num_poles mod 2 =? 0) = true.
Proof.
  intros n Hge Hev. apply andb_true_iff. split.
  - apply Z.leb_le. exact Hge.
  - apply Z.eqb_eq. rewrite Zmod_even, Hev. reflexivity.
Qed.

(** Positive values stay positive under a relative error below 1. *)
Lemma accurate_pos (u exact approx : Q) :
  (0 <= u)%Q -> (u < 1)%Q -> (0 < exact)%Q -> accurate u exact approx ->
  (0 < approx)%Q.
Proof.
  intros Hu0 Hu1 He [Hlo _].
  assert (0 < (1 - u) * exact)%Q by (apply Qmult_lt_0_compat; lra).
  lra.
Qed.

Lemma accurate_quotient (u c d k : Q) :
  (0 < d)%Q -> accurate u (c / d) k ->
  ((1 - u) * c <= k * d /\ k * d <= (1 + u) * c)%Q.
Proof.
  intros Hd [Hlo Hhi].
  assert (Hcd : (c / d * d == c)%Q) by (field; lra).
  split.
  - setoid_replace ((1 - u) * c)%Q with ((1 - u) * (c / d) * d)%Q
      by (rewrite <- Qmult_assoc, Hcd; reflexivity).
    apply Qmult_le_compat_r; lra.
  - setoid_replace ((1 + u) * c)%Q with ((1 + u) * (c / d) * d)%Q
      by (rewrite <- Qmult_assoc, Hcd; reflexivity).
    apply Qmult_le_compat_r; lra.
Qed.

(** The error of the round trip, from the errors of its six operations:
    [a1 = Pi * F], [d1 = a1 * P], [K = C / d1], then [a2 = Pi * K],
    [d2 = a2 * P], [B = C / d2], each accurate to [u]. *)
Lemma round_trip_error_bound (u pi F P C a1 d1 K a2 d2 B : Q) :
  (0 <= u)%Q -> (u < 1)%Q ->
  (0 < pi)%Q -> (0 < F)%Q -> (0 < P)%Q -> (0 < C)%Q ->
  accurate u (pi * F) a1 ->
  accurate u (a1 * P) d1 ->
  accurate u (C / d1) K ->
  accurate u (pi * K) a2 ->
  accurate u (a2 * P) d2 ->
  accurate u (C / d2) B ->
  (0 < K)%Q /\
  ((1 - u) ^ 3 * F <= (1 + u) ^ 3 * B)%Q /\
  ((1 - u) ^ 3 * B <= (1 + u) ^ 3 * F)%Q.
Proof.
  intros Hu0 Hu1 Hpi HF HP HC Ha1 Hd1 HK Ha2 Hd2 HB.
  assert (Ha1p : (0 < a1)%Q).
  { apply (accurate_pos u (pi * F)); try assumption.
    apply Qmult_lt_0_compat; assumption. }
  assert (Hd1p : (0 < d1)%Q).
  { apply (accurate_pos u (a1 * P)); try assumption.
    apply Qmult_lt_0_compat; assumption. }
  assert (HKp : (0 < K)%Q).
  { apply (accurate_pos u (C / d1)); try assumption.
    apply Qlt_shift_div_l; lra. }
  assert (Ha2p : (0 < a2)%Q).
  { apply (accurate_pos u (pi * K)); try assumption.
    apply Qmult_lt_0_compat; assumption. }
  assert (Hd2p : (0 < d2)%Q).
  { apply (accurate_pos u (a2 * P)); try assumption.
    apply Qmult_lt_0_compat; assumption. }
  assert (HBp : (0 < B)%Q).
  { apply (accurate_pos u (C / d2)); try assumption.
    apply Qlt_shift_div_l; lra. }
  apply accurate_quotient in HK; [|exact Hd1p].
  apply accurate_quotient in HB; [|exact Hd2p].
  destruct Ha1 as [Ha1l Ha1h]. destruct Hd1 as [Hd1l Hd1h].
  destruct HK as [HKl HKh]. destruct Ha2 as [Ha2l Ha2h].
  destruct Hd2 as [Hd2l Hd2h]. destruct HB as [HBl HBh].
  assert (Hw : (0 <= 1 - u)%Q) by lra.
  assert (Hv : (0 <= 1 + u)%Q) by lra.
  assert (HG : (0 < pi * K * P)%Q).
  { apply Qmult_lt_0_compat; [apply Qmult_lt_0_compat|]; assumption. }
  assert (Hd1lo : ((1 - u) * ((1 - u) * (pi * F) * P) <= d1)%Q).
  { apply Qle_trans with ((1 - u) * (a1 * P))%Q; [|exact Hd1l].
    apply Qmult_le_nonneg_l; [exact Hw|].
    apply Qmult_le_compat_r; lra. }
  assert (Hd1hi : (d1 <= (1 + u) * ((1 + u) * (pi * F) * P))%Q).
  { apply Qle_trans with ((1 + u) * (a1 * P))%Q; [exact Hd1h|].
    apply Qmult_le_nonneg_l; [exact Hv|].
    apply Qmult_le_compat_r; lra. }
  assert (Hd2lo : ((1 - u) * ((1 - u) * (pi * K) * P) <= d2)%Q).
  { apply Qle_trans with ((1 - u) * (a2 * P))%Q; [|exact Hd2l].
    apply Qmult_le_nonneg_l; [exact Hw|].
    apply Qmult_le_compat_r; lra. }
  assert (Hd2hi : (d2 <= (1 + u) * ((1 + u) * (pi * K) * P))%Q).
  { apply Qle_trans with ((1 + u) * (a2 * P))%Q; [exact Hd2h|].
    apply Qmult_le_nonneg_l; [exact Hv|].
    apply Qmult_le_compat_r; lra. }
  split; [exact HKp|]. split.
  - apply (Qmult_le_r _ _ (pi * K * P) HG).
    apply Qle_trans with ((1 - u) * (K * d1))%Q.
    { setoid_replace ((1 - u) ^ 3 * F * (pi * K * P))%Q
        with ((1 - u) * (K * ((1 - u) * ((1 - u) * (pi * F) * P))))%Q
        by (simpl; ring).
      apply Qmult_le_nonneg_l; [exact Hw|].
      apply Qmult_le_nonneg_l; lra. }
    apply Qle_trans with ((1 + u) * (B * d2))%Q.
    { apply Qle_trans with ((1 - u) * ((1 + u) * C))%Q.
      - apply Qmult_le_nonneg_l; [exact Hw | exact HKh].
      - setoid_replace ((1 - u) * ((1 + u) * C))%Q
          with ((1 + u) * ((1 - u) * C))%Q by ring.
        apply Qmult_le_nonneg_l; [exact Hv | exact HBl]. }
    setoid_replace ((1 + u) ^ 3 * B * (pi * K * P))%Q
      with ((1 + u) * (B * ((1 + u) * ((1 + u) * (pi * K) * P))))%Q
      by (simpl; ring).
    apply Qmult_le_nonneg_l; [exact Hv|].
    apply Qmult_le_nonneg_l; lra.
  - apply (Qmult_le_r _ _ (pi * K * P) HG).
    apply Qle_trans with ((1 - u) * (B * d2))%Q.
    { setoid_replace ((1 - u) ^ 3 * B * (pi * K * P))%Q
        with ((1 - u) * (B * ((1 - u) * ((1 - u) * (pi * K) * P))))%Q
        by (simpl; ring).
      apply Qmult_le_nonneg_l; [exact Hw|].
      apply Qmult_le_nonneg_l; lra. }
    apply Qle_trans with ((1 + u) * (K * d1))%Q.
    { apply Qle_trans with ((1 - u) * ((1 + u) * C))%Q.
      - apply Qmult_le_nonneg_l; [exact Hw | exact HBh].
      - setoid_replace ((1 - u) * ((1 + u) * C))%Q
          with ((1 + u) * ((1 - u) * C))%Q by ring.
        apply Qmult_le_nonneg_l; [exact Hv | exact HKl]. }
    setoid_replace ((1 + u) ^ 3 * F * (pi * K * P))%Q
      with ((1 + u) * (K * ((1 + u) * ((1 + u) * (pi * F) * P))))%Q
      by (simpl; ring).
    apply Qmult_le_nonneg_l; [exact Hv|].
    apply Qmult_le_nonneg_l; lra.
Qed.

(** In single precision a value that stands for a positive number compares
    as greater than zero. *)
Lemma b32_positive_value (x : binary32) :
  (0 < b32_value x)%Q ->
  Slt (ScalarOps := binary32_ops) (Sof_Z (ScalarOps := binary32_ops) 0) x
  = true.
Proof.
  destruct x as [s|s| |s m e]; cbn [b32_value]; intros H;
    try (exfalso; revert H; apply Qlt_irrefl).
  destruct s; [|reflexivity].
  exfalso.
  assert (Hpow : (0 < 2 ^ e)%Q) by (apply Qpower_0_lt; reflexivity).
  assert (Hm : (0 < inject_Z (Z.pos m))%Q) by reflexivity.
  assert (Hprod : (0 < inject_Z (Z.pos m) * 2 ^ e)%Q)
    by (apply Qmult_lt_0_compat; assumption).
  lra.
Qed.

(** C6, counterexample: in single precision the flux linkage 2^127 passes
    the check of [convertFluxLinkageToKV] with 14 poles, the denominator
    [Pi * 2^127 * 14] overflows to infinity and the function returns 0
    without failing an assertion; [convertKVToFluxLinkage] then rejects
    that 0.  No tolerance makes the round trip return the flux linkage for
    every positive input. *)
Lemma round_trip_fails_on_overflow :
  Slt (ScalarOps := binary32_ops) (Sof_Z (ScalarOps := binary32_ops) 0)
    flux_2_127 = true /\
  convertFluxLinkageToKV (ops := binary32_ops) flux_2_127 14
    = Returned (S754_zero false) /\
  convertKVToFluxLinkage (ops := binary32_ops) (S754_zero false) 14
    = AssertionFailed (S754_zero false) /\
  ~ (exists tolerance : Q, round_trip_within tolerance).
Proof.
  assert (H1 : convertFluxLinkageToKV (ops := binary32_ops) flux_2_127 14
               = Returned (S754_zero false)) by (vm_compute; reflexivity).
  assert (H2 : convertKVToFluxLinkage (ops := binary32_ops)
                 (S754_zero false) 14
               = AssertionFailed (S754_zero false))
    by (vm_compute; reflexivity).
  split; [vm_compute; reflexivity|]. split; [exact H1|].
  split; [exact H2|].
  intros [tolerance H].
  destruct (H flux_2_127 14) as (kv & back & Hkv & Hback & _).
  - vm_compute. reflexivity.
  - lia.
  - reflexivity.
  - rewrite H1 in Hkv. injection Hkv as <-.
    rewrite H2 in Hback. discriminate Hback.
Qed.

(** C6, amended: for every scalar arithmetic read through a map [value] to
    the rationals, every flux linkage [f] that stands for a positive number
    and every even pole count [p >= 2]: if each of the six multiplications
    and divisions of the round trip is accurate to the relative error
    [u < 1] (in single precision [u = 2^-24] as long as no result overflows
    or underflows; in exact arithmetic [u = 0]), then both conversions pass
    their checks and the flux linkage that comes back lies within the
    factor [((1 + u) / (1 - u))^3] of [f]; with [u = 0] it is [f]
    itself. *)
Theorem flux_linkage_kv_round_trip_accurate :
  forall (Scalar : Type) (ops : ScalarOps Scalar) (value : Scalar -> Q)
         (u : Q) (f : Scalar) (p : Z),
    let C := (Sof_Z 20 * SquareRootOf3)%S in
    let d1 := (Pi * f * Sof_Z p)%S in
    let kv := (C / d1)%S in
    let d2 := (Pi * kv * Sof_Z p)%S in
    let back := (C / d2)%S in
    (0 <= u)%Q -> (u < 1)%Q ->
    2 <= p -> Z.even p = true ->
    (forall x : Scalar, (0 < value x)%Q -> (Sof_Z 0 <? x)%S = true) ->
    (0 < value Pi)%Q -> (0 < value f)%Q -> (0 < value (Sof_Z p))%Q ->
    (0 < value C)%Q ->
    accurate u (value Pi * value f) (value (Pi * f)%S) ->
    accurate u (value (Pi * f)%S * value (Sof_Z p)) (value d1) ->
    accurate u (value C / value d1) (value kv) ->
    accurate u (value Pi * value kv) (value (Pi * kv)%S) ->
    accurate u (value (Pi * kv)%S * value (Sof_Z p)) (value d2) ->
    accurate u (value C / value d2) (value back) ->
    convertFluxLinkageToKV f p = Returned kv /\
    convertKVToFluxLinkage kv p = Returned back /\
    ((1 - u) ^ 3 * value f <= (1 + u) ^ 3 * value back)%Q /\
    ((1 - u) ^ 3 * value back <= (1 + u) ^ 3 * value f)%Q.
Proof.
  intros Scalar ops value u f p C d1 kv d2 back Hu0 Hu1 Hp Hev Hcmp
    Hpi Hf HP HC Ha1 Hd1 Hkv Ha2 Hd2 Hback.
  destruct (round_trip_error_bound u (value Pi) (value f) (value (Sof_Z p))
              (value C) _ _ _ _ _ _ Hu0 Hu1 Hpi Hf HP HC
              Ha1 Hd1 Hkv Ha2 Hd2 Hback) as (HK & Hlo & Hhi).
  pose proof (pole_count_accepted p Hp Hev) as Hacc.
  split; [|split; [|split; assumption]].
  - unfold convertFluxLinkageToKV.
    rewrite <- andb_assoc, Hacc, andb_true_r, (Hcmp f Hf). reflexivity.
  - unfold convertKVToFluxLinkage.
    rewrite <- andb_assoc, Hacc, andb_true_r, (Hcmp kv HK). reflexivity.
Qed.

(** Single precision, a flux linkage of [0.01F] on a motor with 14 poles:
    the six operations are accurate to 2^-24, and the flux linkage comes
    back within the bound. *)
Lemma flux_linkage_kv_round_trip_accurate_witness :
  exists kv back : binary32,
    convertFluxLinkageToKV (ops := binary32_ops) (b32_of_Q (1 # 100)) 14
      = Returned kv /\
    convertKVToFluxLinkage (ops := binary32_ops) kv 14 = Returned back /\
    ((1 - unit_roundoff) ^ 3 * b32_value (b32_of_Q (1 # 100))
       <= (1 + unit_roundoff) ^ 3 * b32_value back)%Q /\
    ((1 - unit_roundoff) ^ 3 * b32_value back
       <= (1 + unit_roundoff) ^ 3 * b32_value (b32_of_Q (1 # 100)))%Q.
Proof.
  eexists. eexists.
  apply (flux_linkage_kv_round_trip_accurate binary32 binary32_ops
           b32_value unit_roundoff (b32_of_Q (1 # 100)) 14).
  - discriminate.
  - reflexivity.
  - lia.
  - reflexivity.
  - exact b32_positive_value.
  - vm_compute. reflexivity.
  - vm_compute. reflexivity.
  - vm_compute. reflexivity.
  - vm_compute. reflexivity.
  - split; vm_compute; discriminate.
  - split; vm_compute; discriminate.
  - split; vm_compute; discriminate.
  - split; vm_compute; discriminate.
  - split; vm_compute; discriminate.
  - split; vm_compute; discriminate.
Defined.

(** ** [BeepingTask]: how long the driver is kept active *)

Section Duration.
Variable pi : Q.
Variable context : TaskContext Q.
Variables frequency duration : Q.
Variable inputs : nat -> Vector2 Q * Q.

Let T : Q := period (board_pwm context).
Let D : Q :=
  constrain (ops := Q_ops pi) (DurationLimits (ops := Q_ops pi)) duration.
Let task (k : nat) : BeepingTask Q :=
  after_periods (ops := Q_ops pi) k
    (BeepingTask_new (ops := Q_ops pi) context frequency duration) inputs.
Let elapsed (k : nat) : Q := (inject_Z (Z.of_nat k) * T)%Q.

Lemma clamped_duration_in_band : (0 <= D <= 3)%Q.
Proof.
  unfold D, DurationLimits. cbn [Sof_Z Q_ops].
  apply (Q_constrain_in_band pi (inject_Z 0) (inject_Z 3)).
  compute; discriminate.
Qed.

Lemma elapsed_succ (k : nat) : (elapsed (S k) == elapsed k + T)%Q.
Proof.
  unfold elapsed. rewrite Nat2Z.inj_succ. unfold Z.succ.
  rewrite inject_Z_plus. change (inject_Z 1) with 1%Q. ring.
Qed.

Lemma elapsed_nonneg_factor (k : nat) : (0 <= inject_Z (Z.of_nat k))%Q.
Proof. change 0%Q with (inject_Z 0). rewrite <- Zle_Qle. lia. Qed.

(** After [k] calls the remaining duration is the clamped duration minus
    the time of [k] periods, unless the task has stopped: then it is
    negative and stays as it is. *)
Lemma remaining_duration_after (k : nat) :
  context_ (task k) = context /\
  ((remaining_duration_ (task k) == D - elapsed k)%Q \/
   ((remaining_duration_ (task k) < 0)%Q /\ (D < elapsed k)%Q /\ (0 < T)%Q)).
Proof.
  induction k as [|k [Hctx IH]].
  - split; [reflexivity|]. left. unfold task, elapsed. cbn.
    fold D. ring.
  - pose proof clamped_duration_in_band as HD.
    pose proof (elapsed_succ k) as Hs.
    pose proof (elapsed_nonneg_factor k) as Hk.
    unfold task. cbn [after_periods]. fold (task k).
    unfold onNextPWMPeriod.
    destruct (Sle (ScalarOps := Q_ops pi) (Sof_Z (ScalarOps := Q_ops pi) 0)
                (remaining_duration_ (task k))) eqn:Eact.
    + apply Q_Sle_true in Eact. cbn [Sof_Z Q_ops] in Eact.
      change (inject_Z 0) with 0%Q in Eact.
      assert (Hrem : (remaining_duration_ (task k) == D - elapsed k)%Q).
      { destruct IH as [IH | [IH _]]; [exact IH | lra]. }
      destruct (Sle (ScalarOps := Q_ops pi) _ _);
        cbn [snd context_ remaining_duration_];
        (split; [exact Hctx|]); left;
        rewrite Hctx; fold T; cbn [Ssub Q_ops]; rewrite Hrem, Hs; ring.
    + apply Q_Sle_false in Eact. cbn [Sof_Z Q_ops] in Eact.
      change (inject_Z 0) with 0%Q in Eact.
      cbn [snd]. split; [exact Hctx|]. right.
      assert (HT : (0 < T)%Q /\ (D < elapsed k)%Q).
      { destruct IH as [IH | [_ [IH1 IH2]]]; [|split; assumption].
        assert (Hlt : (D < elapsed k)%Q) by lra.
        split; [|exact Hlt].
        unfold elapsed in Hlt.
        destruct (Qlt_le_dec 0 T) as [Hpos|Hneg]; [exact Hpos|].
        exfalso.
        assert (Hprod : (inject_Z (Z.of_nat k) * T <= 0)%Q).
        { rewrite Qmult_comm.
          setoid_replace 0%Q with (0 * inject_Z (Z.of_nat k))%Q by ring.
          apply Qmult_le_compat_r; assumption. }
        lra. }
      destruct HT as [HT Hlt]. repeat split; [exact Eact | lra | exact HT].
Qed.

(** Call number [k], counting from 0, keeps the driver active exactly when
    the time of the [k] periods before it does not exceed the clamped
    duration. *)
Lemma driver_active_iff (k : nat) :
  driver_active_at (ops := Q_ops pi) k
    (BeepingTask_new (ops := Q_ops pi) context frequency duration) inputs
  = true <-> (elapsed k <= D)%Q.
Proof.
  unfold driver_active_at, output_at. fold (task k).
  destruct (remaining_duration_after k) as [_ Hrem].
  unfold onNextPWMPeriod.
  destruct (Sle (ScalarOps := Q_ops pi) (Sof_Z (ScalarOps := Q_ops pi) 0)
              (remaining_duration_ (task k))) eqn:Eact.
  - apply Q_Sle_true in Eact. cbn [Sof_Z Q_ops] in Eact.
    change (inject_Z 0) with 0%Q in Eact.
    assert (Hact : (elapsed k <= D)%Q).
    { destruct Hrem as [Hrem | [Hrem _]]; lra. }
    destruct (Sle (ScalarOps := Q_ops pi) _ _); cbn [fst snd];
      split; trivial.
  - apply Q_Sle_false in Eact. cbn [Sof_Z Q_ops] in Eact.
    change (inject_Z 0) with 0%Q in Eact.
    cbn [fst snd]. split; [discriminate|].
    intros Hle. exfalso. destruct Hrem as [Hrem | [_ [Hrem _]]]; lra.
Qed.

End Duration.

(** ** [BeepingTask]: the order of the pulses *)

Section Pulses.
Context {Scalar : Type} {ops : ScalarOps Scalar}.

(** What a call does, read off [pulse_phase]: a pulse is the unit vector of
    its phase and moves the counter on by one modulo 2^32; a call without a
    pulse returns the zero vector and leaves the counter alone. *)
Lemma onNextPWMPeriod_pulse (t : BeepingTask Scalar)
  (ab : Vector2 Scalar) (v : Scalar) :
  match pulse_phase t with
  | Some p =>
      fst (onNextPWMPeriod t ab v) = (unit_vector p, true) /\
      p = next_phase_index_ t mod 3 /\
      next_phase_index_ (snd (onNextPWMPeriod t ab v)) =
        (next_phase_index_ t + 1) mod unsigned_modulus
  | None =>
      fst (fst (onNextPWMPeriod t ab v)) = Zero /\
      next_phase_index_ (snd (onNextPWMPeriod t ab v)) = next_phase_index_ t
  end.
Proof.
  unfold pulse_phase, onNextPWMPeriod.
  destruct (Sof_Z 0 <=? remaining_duration_ t)%S.
  - destruct (_ <=? Sof_Z 0)%S; cbn [fst snd next_phase_index_];
      repeat split.
  - cbn [fst snd]. split; reflexivity.
Qed.

Variable t : BeepingTask Scalar.
Variable inputs : nat -> Vector2 Scalar * Scalar.

Lemma counter_after_pulse (j : nat) (p : Z) :
  pulse_phase (after_periods j t inputs) = Some p ->
  fst (output_at j t inputs) = unit_vector p /\
  p = next_phase_index_ (after_periods j t inputs) mod 3 /\
  next_phase_index_ (after_periods (S j) t inputs) =
    (next_phase_index_ (after_periods j t inputs) + 1) mod unsigned_modulus.
Proof.
  intros Hp. unfold output_at. cbn [after_periods].
  pose proof (onNextPWMPeriod_pulse (after_periods j t inputs)
                (fst (inputs j)) (snd (inputs j))) as H.
  rewrite Hp in H. destruct H as (Hout & Hphase & Hidx).
  rewrite Hout. repeat split; assumption.
Qed.

Lemma counter_kept_without_pulse (j n : nat) :
  (forall i : nat, (j <= i < j + n)%nat ->
     pulse_phase (after_periods i t inputs) = None) ->
  next_phase_index_ (after_periods (j + n) t inputs) =
    next_phase_index_ (after_periods j t inputs).
Proof.
  induction n as [|n IH]; intros Hnone.
  - rewrite Nat.add_0_r. reflexivity.
  - rewrite Nat.add_succ_r. cbn [after_periods].
    pose proof (onNextPWMPeriod_pulse (after_periods (j + n) t inputs)
                  (fst (inputs (j + n)%nat)) (snd (inputs (j + n)%nat))) as H.
    rewrite (Hnone (j + n)%nat) in H by lia.
    destruct H as [_ H]. rewrite H. apply IH.
    intros i Hi. apply Hnone. lia.
Qed.

(** Two pulses with no pulse between them: the later one is on the phase
    selected by the counter of the earlier one plus one modulo 2^32. *)
Lemma consecutive_pulses (j k : nat) (p q : Z) :
  (j < k)%nat ->
  pulse_phase (after_periods j t inputs) = Some p ->
  (forall i : nat, (j < i < k)%nat ->
     pulse_phase (after_periods i t inputs) = None) ->
  pulse_phase (after_periods k t inputs) = Some q ->
  fst (output_at j t inputs) = unit_vector p /\
  fst (output_at k t inputs) = unit_vector q /\
  p = next_phase_index_ (after_periods j t inputs) mod 3 /\
  q = ((next_phase_index_ (after_periods j t inputs) + 1)
         mod unsigned_modulus) mod 3.
Proof.
  intros Hjk Hp Hnone Hq.
  destruct (counter_after_pulse j p Hp) as (Hout & Hphase & Hidx).
  destruct (counter_after_pulse k q Hq) as (Hout' & Hphase' & _).
  repeat split; try assumption.
  rewrite Hphase'. f_equal. rewrite <- Hidx.
  replace k with (S j + (k - S j))%nat by lia.
  apply counter_kept_without_pulse.
  intros i Hi. apply Hnone. lia.
Qed.

End Pulses.

Lemma next_phase_without_wrap (n : Z) :
  0 <= n < 2 ^ 32 - 1 ->
  ((n + 1) mod unsigned_modulus) mod 3 = (n mod 3 + 1) mod 3.
Proof.
  intros Hn. unfold unsigned_modulus. rewrite (Z.mod_small (n + 1)) by lia.
  rewrite Zplus_mod_idemp_l. reflexivity.
Qed.

Section ExcitationPeriodBounds.
Variable pi : Q.
Variable frequency : Q.

Let F : Q :=
  constrain (ops := Q_ops pi) (FrequencyLimits (ops := Q_ops pi)) frequency.
Let E : Q := (1 / F)%Q.

(** In exact arithmetic the excitation period is positive and at least
    1/15000 s. *)
Lemma excitation_period_bounds : (0 < E)%Q /\ (1 <= 15000 * E)%Q.
Proof.
  assert (HF : (100 <= F <= 15000)%Q).
  { unfold F, FrequencyLimits. cbn [Sof_Z Q_ops].
    apply (Q_constrain_in_band pi (inject_Z 100) (inject_Z 15000)).
    compute; discriminate. }
  assert (HFE : (F * E == 1)%Q).
  { unfold E. field. lra. }
  assert (HE : (0 < E)%Q).
  { unfold E, Qdiv. rewrite Qmult_1_l. apply Qinv_lt_0_compat. lra. }
  split; [exact HE|].
  rewrite <- HFE. apply Qmult_le_compat_r; lra.
Qed.

End ExcitationPeriodBounds.

(** ** [BeepingTask]: releasing the driver *)

Section Release.
Context {Scalar : Type} {ops : ScalarOps Scalar}.

(** The flag a call returns is the outcome of its first test. *)
Lemma driver_active_is_first_test (t : BeepingTask Scalar)
  (ab : Vector2 Scalar) (v : Scalar) :
  snd (fst (onNextPWMPeriod t ab v)) = (Sof_Z 0 <=? remaining_duration_ t)%S.
Proof.
  unfold onNextPWMPeriod.
  destruct (Sof_Z 0 <=? remaining_duration_ t)%S; [|reflexivity].
  destruct (_ <=? Sof_Z 0)%S; reflexivity.
Qed.

Lemma released_call_changes_nothing (t : BeepingTask Scalar)
  (ab : Vector2 Scalar) (v : Scalar) :
  snd (fst (onNextPWMPeriod t ab v)) = false ->
  onNextPWMPeriod t ab v = ((Zero, false), t).
Proof.
  rewrite driver_active_is_first_test. intros H.
  unfold onNextPWMPeriod. rewrite H. reflexivity.
Qed.

Variable t : BeepingTask Scalar.

Lemma released_state_kept (inputs : nat -> Vector2 Scalar * Scalar)
  (k n : nat) :
  driver_active_at k t inputs = false ->
  after_periods (k + n) t inputs = after_periods k t inputs.
Proof.
  intros Hoff. induction n as [|n IH].
  - rewrite Nat.add_0_r. reflexivity.
  - rewrite Nat.add_succ_r. cbn [after_periods]. rewrite IH.
    rewrite released_call_changes_nothing; [reflexivity|].
    unfold driver_active_at, output_at in Hoff.
    rewrite driver_active_is_first_test in Hoff.
    rewrite driver_active_is_first_test. exact Hoff.
Qed.

End Release.

(** ** [BeepingTask]: the remaining duration during a run *)

Section Remainder.
Context {Scalar : Type} {ops : ScalarOps Scalar}.
Variable context : TaskContext Scalar.
Variables frequency duration : Scalar.
Variable inputs : nat -> Vector2 Scalar * Scalar.

Let T : Scalar := period (board_pwm context).
Let D : Scalar := constrain DurationLimits duration.
Let task0 : BeepingTask Scalar := BeepingTask_new context frequency duration.
Let task (k : nat) : BeepingTask Scalar := after_periods k task0 inputs.

Lemma active_is_test (k : nat) :
  driver_active_at k task0 inputs =
  (Sof_Z 0 <=? remaining_duration_ (task k))%S.
Proof.
  unfold driver_active_at, output_at. fold (task k).
  apply driver_active_is_first_test.
Qed.

(** A call that keeps the driver active comes after calls that did. *)
Lemma active_before (k j : nat) :
  driver_active_at k task0 inputs = true -> (j <= k)%nat ->
  driver_active_at j task0 inputs = true.
Proof.
  intros Hk Hjk.
  destruct (driver_active_at j task0 inputs) eqn:Hj; [reflexivity|].
  pose proof (released_state_kept task0 inputs j (k - j) Hj) as Hkept.
  replace (j + (k - j))%nat with k in Hkept by lia.
  rewrite active_is_test in Hk, Hj. unfold task in Hk, Hj.
  rewrite Hkept, Hj in Hk. discriminate Hk.
Qed.

(** While the task runs, its remaining duration is the clamped duration
    less one PWM period for each call made. *)
Lemma remaining_while_running (k : nat) :
  (forall j : nat, (j < k)%nat -> driver_active_at j task0 inputs = true) ->
  context_ (task k) = context /\
  remaining_duration_ (task k) = remaining_after D T k.
Proof.
  induction k as [|k IH]; intros Hrun.
  - split; reflexivity.
  - destruct IH as [Hctx Hrem]; [intros j Hj; apply Hrun; lia|].
    pose proof (Hrun k (Nat.lt_succ_diag_r k)) as Hact.
    rewrite active_is_test in Hact.
    unfold task. cbn [after_periods]. fold (task k).
    unfold remaining_after. cbn [Nat.iter]. fold (remaining_after D T k).
    unfold onNextPWMPeriod. rewrite Hact, Hctx. fold T.
    match goal with
    | |- context [Sle ?a ?b] => destruct (Sle a b)
    end; cbn [snd context_ remaining_duration_]; rewrite Hrem;
      split; reflexivity.
Qed.

Lemma active_iff_remainders (k : nat) :
  driver_active_at k task0 inputs = true <->
  (forall j : nat, (j <= k)%nat ->
     (Sof_Z 0 <=? remaining_after D T j)%S = true).
Proof.
  split.
  - intros Hk j Hj.
    destruct (remaining_while_running j) as [_ Hrem].
    { intros i Hi. apply (active_before k); [exact Hk | lia]. }
    rewrite <- Hrem, <- active_is_test.
    apply (active_before k); assumption.
  - revert k. induction k as [|k IH]; intros Hall.
    + rewrite active_is_test. apply (Hall 0%nat). lia.
    + assert (Hrun : forall j : nat, (j < S k)%nat ->
                driver_active_at j task0 inputs = true).
      { intros j Hj. apply (active_before k); [|lia].
        apply IH. intros i Hi. apply Hall. lia. }
      destruct (remaining_while_running (S k) Hrun) as [_ Hrem].
      rewrite active_is_test, Hrem. apply Hall. lia.
Qed.

(** The counter of a task set up by the constructor is the number of pulses
    it has emitted, modulo 2^32. *)
Lemma counter_counts_pulses (k : nat) :
  next_phase_index_ (task k) =
  pulses_before k task0 inputs mod unsigned_modulus /\
  0 <= pulses_before k task0 inputs.
Proof.
  induction k as [|k [IH Hpos]].
  - split; [reflexivity | cbn; lia].
  - unfold task. cbn [after_periods pulses_before]. fold (task k).
    pose proof (onNextPWMPeriod_pulse (task k)
                  (fst (inputs k)) (snd (inputs k))) as Hp.
    destruct (pulse_phase (task k)) as [p|].
    + destruct Hp as (_ & _ & Hp). rewrite Hp, IH.
      split; [apply Zplus_mod_idemp_l | lia].
    + destruct Hp as [_ Hp]. rewrite Hp, IH, Z.add_0_r.
      split; [reflexivity | exact Hpos].
Qed.

End Remainder.

(** C3, counterexample: a task requested for -1 s has the clamped duration
    0, which the elapsed time has reached before the first call, and the
    first call keeps the driver active; a task requested for 5 s with a
    period of 1 s has the clamped duration 3 and still keeps the driver
    active at its fourth call, when 3 s have elapsed.  Neither way of
    counting the elapsed time makes the statement hold. *)
Lemma driver_still_active_at_clamped_duration :
  constrain (ops := exact_ops) (DurationLimits (ops := exact_ops))
    (- (1))%Q = 0%Q /\
  driver_active_at (ops := exact_ops) 0
    (BeepingTask_new (ops := exact_ops) pwm_20kHz 1000%Q (- (1))%Q)
    idle_inputs = true /\
  constrain (ops := exact_ops) (DurationLimits (ops := exact_ops)) 5%Q
  = 3%Q /\
  driver_active_at (ops := exact_ops) 3
    (BeepingTask_new (ops := exact_ops) pwm_1s 1000%Q 5%Q)
    idle_inputs = true /\
  driver_active_at (ops := exact_ops) 4
    (BeepingTask_new (ops := exact_ops) pwm_1s 1000%Q 5%Q)
    idle_inputs = false /\
  ~ driver_released_once_elapsed_reaches_duration false /\
  ~ driver_released_once_elapsed_reaches_duration true.
Proof.
  split; [vm_compute; reflexivity|].
  split; [vm_compute; reflexivity|].
  split; [vm_compute; reflexivity|].
  split; [vm_compute; reflexivity|].
  split; [vm_compute; reflexivity|].
  split; intros H;
    destruct (H Pi_decimal pwm_20kHz 1000%Q (- (1))%Q idle_inputs 0%nat
                eq_refl) as [H1 _];
    specialize (H1 eq_refl); vm_compute in H1; discriminate H1.
Qed.

(** C3, amended: for every scalar arithmetic and every requested duration,
    call number [k] of [onNextPWMPeriod] (counting from 0) returns
    [driver_active = true] exactly when the clamped duration, less the PWM
    period subtracted once for each call made so far in the arithmetic of
    the scalar type, has been found [>= 0] at every call up to [k].  The
    first call is active exactly when the clamped duration is [>= 0], so a
    remainder of exactly 0 still counts as running; the driver is released
    at the first call that finds the remainder negative, and from a call
    that released it every later call does. *)
Theorem driver_active_while_remainder_not_negative :
  forall (Scalar : Type) (ops : ScalarOps Scalar)
         (context : TaskContext Scalar) (frequency duration : Scalar)
         (inputs : nat -> Vector2 Scalar * Scalar) (k : nat),
    let t := BeepingTask_new context frequency duration in
    let clamped := constrain DurationLimits duration in
    let pwm_period := period (board_pwm context) in
    (driver_active_at k t inputs = true <->
     forall j : nat, (j <= k)%nat ->
       (Sof_Z 0 <=? remaining_after clamped pwm_period j)%S = true) /\
    (driver_active_at 0 t inputs = (Sof_Z 0 <=? clamped)%S) /\
    (driver_active_at k t inputs = false ->
     forall m : nat, (k <= m)%nat -> driver_active_at m t inputs = false).
Proof.
  intros Scalar ops context frequency duration inputs k t clamped pwm_period.
  split; [apply active_iff_remainders|]. split.
  - apply (active_is_test context frequency duration inputs 0).
  - intros Hoff m Hkm.
    destruct (driver_active_at m t inputs) eqn:Hm; [|reflexivity].
    pose proof (active_before context frequency duration inputs m k Hm Hkm)
      as Hk.
    fold t in Hk. rewrite Hk in Hoff. discriminate Hoff.
Qed.

(** In single precision the remainder is not the clamped duration less the
    elapsed time.  With a duration of 1 s and a PWM period of [0.04F] the
    driver is released at call 25, although 25 periods are less than 1 s;
    with a PWM period of [0.2F] it is still active at call 5, although 5
    periods are more than 1 s. *)
Lemma rounded_remainder_decides_release :
  driver_active_at (ops := binary32_ops) 24
    (BeepingTask_new (ops := binary32_ops) b32_pwm_25Hz
       (b32_of_Z 1000) (b32_of_Z 1)) b32_idle_inputs = true /\
  driver_active_at (ops := binary32_ops) 25
    (BeepingTask_new (ops := binary32_ops) b32_pwm_25Hz
       (b32_of_Z 1000) (b32_of_Z 1)) b32_idle_inputs = false /\
  (inject_Z 25 * b32_value (period (board_pwm b32_pwm_25Hz)) < 1)%Q /\
  driver_active_at (ops := binary32_ops) 5
    (BeepingTask_new (ops := binary32_ops) b32_pwm_5Hz
       (b32_of_Z 1000) (b32_of_Z 1)) b32_idle_inputs = true /\
  driver_active_at (ops := binary32_ops) 6
    (BeepingTask_new (ops := binary32_ops) b32_pwm_5Hz
       (b32_of_Z 1000) (b32_of_Z 1)) b32_idle_inputs = false /\
  (1 < inject_Z 5 * b32_value (period (board_pwm b32_pwm_5Hz)))%Q.
Proof.
  split; [vm_compute; reflexivity|].
  split; [vm_compute; reflexivity|].
  split; [vm_compute; reflexivity|].
  split; [vm_compute; reflexivity|].
  split; [vm_compute; reflexivity|].
  vm_compute; reflexivity.
Qed.

(** ** [BeepingTask]: the phase counter over a long run *)

Section CounterShift.
Context {Scalar : Type} {ops : ScalarOps Scalar}.

(** The counter decides the phase of a pulse and nothing else. *)
Lemma pulse_phase_with_counter (t : BeepingTask Scalar) (c : Z) :
  pulse_phase (with_counter t c) =
  match pulse_phase t with
  | Some _ => Some (c mod 3)
  | None => None
  end.
Proof.
  unfold pulse_phase, with_counter.
  cbn [remaining_duration_ time_to_next_excitation_ context_
       next_phase_index_].
  destruct (Sof_Z 0 <=? remaining_duration_ t)%S; [|reflexivity].
  destruct (_ <=? Sof_Z 0)%S; reflexivity.
Qed.

Lemma step_with_counter (t : BeepingTask Scalar) (c : Z)
  (ab ab2 : Vector2 Scalar) (v v2 : Scalar) :
  snd (onNextPWMPeriod (with_counter t c) ab v) =
  with_counter (snd (onNextPWMPeriod t ab2 v2))
    match pulse_phase t with
    | Some _ => (c + 1) mod unsigned_modulus
    | None => c
    end.
Proof.
  unfold pulse_phase, onNextPWMPeriod, with_counter.
  cbn [remaining_duration_ time_to_next_excitation_ context_
       excitation_period_ next_phase_index_].
  destruct (Sof_Z 0 <=? remaining_duration_ t)%S; [|reflexivity].
  destruct (_ <=? Sof_Z 0)%S; reflexivity.
Qed.

Lemma after_periods_add (a b : nat) (t : BeepingTask Scalar)
  (inputs : nat -> Vector2 Scalar * Scalar) :
  after_periods (a + b) t inputs =
  after_periods b (after_periods a t inputs) inputs.
Proof.
  induction b as [|b IH].
  - rewrite Nat.add_0_r. reflexivity.
  - rewrite Nat.add_succ_r. cbn [after_periods]. rewrite IH. reflexivity.
Qed.

Lemma after_periods_succ (n : nat) (t : BeepingTask Scalar)
  (inputs : nat -> Vector2 Scalar * Scalar) :
  after_periods (S n) t inputs =
  snd (onNextPWMPeriod (after_periods n t inputs)
         (fst (inputs n)) (snd (inputs n))).
Proof. reflexivity. Qed.

Lemma quiet_run_with_counter (r : nat) (t : BeepingTask Scalar) (c : Z)
  (inputs : nat -> Vector2 Scalar * Scalar) :
  (forall i : nat, (i < r)%nat ->
     pulse_phase (after_periods i t inputs) = None) ->
  after_periods r (with_counter t c) inputs =
  with_counter (after_periods r t inputs) c.
Proof.
  induction r as [|r IH]; intros Hquiet; [reflexivity|].
  cbn [after_periods]. rewrite IH by (intros i Hi; apply Hquiet; lia).
  rewrite (step_with_counter _ c _ (fst (inputs r)) _ (snd (inputs r))).
  rewrite (Hquiet r) by lia. reflexivity.
Qed.

End CounterShift.

(** [tone_task] in single precision.  Its PWM period 2^-23 is half the
    spacing of the numbers next to 3, so [3 - 2^-23] rounds back to 3 and
    the remaining duration never falls; the excitation period 2^-13 is
    counted down exactly.  After 1024 calls, the last of which emits a
    pulse, the task is as at the start with its counter one higher. *)
Lemma cycle_state :
  after_periods (ops := binary32_ops) 1024 tone_task b32_idle_inputs =
  with_counter tone_task 1.
Proof. vm_compute. reflexivity. Qed.

Lemma cycle_pulse :
  pulse_phase (ops := binary32_ops)
    (after_periods (ops := binary32_ops) 1023 tone_task b32_idle_inputs)
  = Some 0.
Proof. vm_compute. reflexivity. Qed.

Lemma cycle_quiet (r : nat) :
  (r < 1023)%nat ->
  pulse_phase (ops := binary32_ops)
    (after_periods (ops := binary32_ops) r tone_task b32_idle_inputs)
  = None.
Proof.
  intros Hr.
  assert (Hall : forallb is_quiet (seq 0 1023) = true)
    by (vm_compute; reflexivity).
  rewrite forallb_forall in Hall.
  specialize (Hall r). unfold is_quiet in Hall.
  destruct (pulse_phase _); [|reflexivity].
  discriminate Hall. apply in_seq. lia.
Qed.

Lemma cycle_from (c : Z) :
  after_periods (ops := binary32_ops) 1024 (with_counter tone_task c)
    b32_idle_inputs
  = with_counter tone_task ((c + 1) mod unsigned_modulus).
Proof.
  change 1024%nat with (S 1023).
  rewrite (after_periods_succ 1023 (with_counter tone_task c)
             b32_idle_inputs).
  rewrite (quiet_run_with_counter (ops := binary32_ops) 1023 tone_task c
             b32_idle_inputs cycle_quiet).
  rewrite (step_with_counter (ops := binary32_ops) _ c _
             (fst (b32_idle_inputs 1023%nat)) _
             (snd (b32_idle_inputs 1023%nat))).
  rewrite cycle_pulse.
  rewrite <- (after_periods_succ 1023 tone_task b32_idle_inputs).
  change (S 1023) with 1024%nat. rewrite cycle_state. reflexivity.
Qed.

Lemma after_cycles (n : nat) :
  after_periods (ops := binary32_ops) (n * 1024) tone_task b32_idle_inputs
  = with_counter tone_task (Z.of_nat n mod unsigned_modulus).
Proof.
  induction n as [|n IH]; [reflexivity|].
  rewrite Nat.mul_succ_l, after_periods_add, IH, cycle_from.
  rewrite Zplus_mod_idemp_l, Nat2Z.inj_succ. reflexivity.
Qed.

Lemma within_cycle (n r : nat) :
  (r <= 1023)%nat ->
  after_periods (ops := binary32_ops) (n * 1024 + r) tone_task
    b32_idle_inputs =
  with_counter
    (after_periods (ops := binary32_ops) r tone_task b32_idle_inputs)
    (Z.of_nat n mod unsigned_modulus).
Proof.
  intros Hr. rewrite after_periods_add, after_cycles.
  apply quiet_run_with_counter. intros i Hi. apply cycle_quiet. lia.
Qed.

(** The task emits a pulse at the last call of every 1024, on the phase
    given by the number of pulses before it modulo 2^32, modulo 3. *)
Lemma pulse_within_cycle (n r : nat) :
  (r <= 1023)%nat ->
  pulse_phase (ops := binary32_ops)
    (after_periods (ops := binary32_ops) (n * 1024 + r) tone_task
       b32_idle_inputs) =
  if (r =? 1023)%nat then Some ((Z.of_nat n mod unsigned_modulus) mod 3)
  else None.
Proof.
  intros Hr. rewrite (within_cycle n r Hr), pulse_phase_with_counter.
  destruct (Nat.eqb_spec r 1023) as [->|Hne].
  - rewrite cycle_pulse. reflexivity.
  - rewrite cycle_quiet by lia. reflexivity.
Qed.

(** C4, counterexample: a task set up by the constructor, in single
    precision, for a tone of 8192 Hz and a duration of 3 s in a context
    whose PWM period is 2^-23 s.  The remaining duration never falls, so
    the task runs on; its pulse number 2^32 (counter at 2^32 - 1) and the
    next one (counter wrapped to 0) are both on phase 0, with no pulse
    between them. *)
Lemma phase_repeated_after_2_32_pulses :
  pulse_phase (ops := binary32_ops)
    (after_periods (ops := binary32_ops)
       (cycles_before_wrap * 1024 + 1023) tone_task b32_idle_inputs)
  = Some 0 /\
  pulse_phase (ops := binary32_ops)
    (after_periods (ops := binary32_ops)
       (S cycles_before_wrap * 1024 + 1023) tone_task b32_idle_inputs)
  = Some 0 /\
  (forall i : nat,
     (cycles_before_wrap * 1024 + 1023 < i
      < S cycles_before_wrap * 1024 + 1023)%nat ->
     pulse_phase (ops := binary32_ops)
       (after_periods (ops := binary32_ops) i tone_task b32_idle_inputs)
     = None) /\
  ~ round_robin_for_whole_life.
Proof.
  assert (Hcb : Z.of_nat cycles_before_wrap = 2 ^ 32 - 1).
  { unfold cycles_before_wrap. apply Z2Nat.id. discriminate. }
  assert (Hj : pulse_phase (ops := binary32_ops)
            (after_periods (ops := binary32_ops)
               (cycles_before_wrap * 1024 + 1023) tone_task b32_idle_inputs)
            = Some 0).
  { rewrite pulse_within_cycle by lia. rewrite Hcb. reflexivity. }
  assert (Hk : pulse_phase (ops := binary32_ops)
            (after_periods (ops := binary32_ops)
               (S cycles_before_wrap * 1024 + 1023) tone_task
               b32_idle_inputs)
            = Some 0).
  { rewrite pulse_within_cycle by lia. rewrite Nat2Z.inj_succ, Hcb.
    reflexivity. }
  assert (Hbetween : forall i : nat,
            (cycles_before_wrap * 1024 + 1023 < i
             < S cycles_before_wrap * 1024 + 1023)%nat ->
            pulse_phase (ops := binary32_ops)
              (after_periods (ops := binary32_ops) i tone_task
                 b32_idle_inputs) = None).
  { intros i Hi.
    replace i with (S cycles_before_wrap * 1024
                    + (i - S cycles_before_wrap * 1024))%nat by lia.
    rewrite pulse_within_cycle by lia.
    destruct (Nat.eqb_spec (i - S cycles_before_wrap * 1024) 1023)
      as [E|_]; [lia | reflexivity]. }
  split; [exact Hj|]. split; [exact Hk|]. split; [exact Hbetween|].
  intros H.
  assert (Habs : 0 = (0 + 1) mod 3).
  { apply (H pwm_2_23 (b32_of_Z 8192) (b32_of_Z 3) b32_idle_inputs
             (cycles_before_wrap * 1024 + 1023)%nat
             (S cycles_before_wrap * 1024 + 1023)%nat 0 0).
    - lia.
    - exact Hj.
    - exact Hbetween.
    - exact Hk. }
  discriminate Habs.
Qed.

(** C4, amended: for every scalar arithmetic and every task set up by the
    constructor, take two pulses with no pulse between them, and let [c] be
    the number of pulses emitted before the earlier one, modulo 2^32 (the
    value of the 32-bit counter).  Each pulse is the unit vector of its
    phase; the earlier pulse is on phase [c mod 3]; whenever [c] is below
    2^32 - 1 the later pulse is on the next phase, so the first 2^32 pulses
    of a task visit the phases in the order 0, 1, 2, 0, ...; when [c] is
    2^32 - 1 the counter wraps and both pulses are on phase 0. *)
Theorem pulses_round_robin_until_counter_wraps :
  forall (Scalar : Type) (ops : ScalarOps Scalar)
         (context : TaskContext Scalar) (frequency duration : Scalar)
         (inputs : nat -> Vector2 Scalar * Scalar) (j k : nat) (p q : Z),
    let t := BeepingTask_new context frequency duration in
    let c := pulses_before j t inputs mod 2 ^ 32 in
    (j < k)%nat ->
    pulse_phase (after_periods j t inputs) = Some p ->
    (forall i : nat, (j < i < k)%nat ->
       pulse_phase (after_periods i t inputs) = None) ->
    pulse_phase (after_periods k t inputs) = Some q ->
    fst (output_at j t inputs) = unit_vector p /\
    fst (output_at k t inputs) = unit_vector q /\
    p = c mod 3 /\
    (c < 2 ^ 32 - 1 -> q = (p + 1) mod 3) /\
    (pulses_before j t inputs < 2 ^ 32 - 1 -> q = (p + 1) mod 3) /\
    (c = 2 ^ 32 - 1 -> p = 0 /\ q = 0).
Proof.
  intros Scalar ops context frequency duration inputs j k p q t c
    Hjk Hp Hnone Hq.
  destruct (consecutive_pulses t inputs j k p q Hjk Hp Hnone Hq)
    as (Hout & Hout' & Hphase & Hphase').
  destruct (counter_counts_pulses context frequency duration inputs j)
    as [Hcnt Hpos].
  fold t in Hcnt, Hpos. unfold unsigned_modulus in Hcnt at 1.
  fold c in Hcnt. rewrite Hcnt in Hphase, Hphase'.
  assert (Hc : 0 <= c < 2 ^ 32) by (apply Z.mod_pos_bound; reflexivity).
  assert (Hnext : c < 2 ^ 32 - 1 -> q = (p + 1) mod 3).
  { intros Hlt. rewrite Hphase', Hphase.
    apply next_phase_without_wrap. lia. }
  split; [exact Hout|]. split; [exact Hout'|]. split; [exact Hphase|].
  split; [exact Hnext|]. split.
  - intros Hlt. apply Hnext. unfold c.
    rewrite Z.mod_small by lia. exact Hlt.
  - intros Heq. rewrite Heq in Hphase, Hphase'. split.
    + rewrite Hphase. reflexivity.
    + rewrite Hphase'. reflexivity.
Qed.

(** Single precision, a PWM period of 50 microseconds, a tone of 10 kHz for
    1 s: calls 1 and 3 emit the first two pulses, on phases 0 and 1. *)
Lemma pulses_round_robin_until_counter_wraps_witness :
  fst (output_at (ops := binary32_ops) 1
         (BeepingTask_new (ops := binary32_ops) b32_pwm_20kHz
            (b32_of_Z 10000) (b32_of_Z 1)) b32_idle_inputs)
    = unit_vector (ops := binary32_ops) 0 /\
  fst (output_at (ops := binary32_ops) 3
         (BeepingTask_new (ops := binary32_ops) b32_pwm_20kHz
            (b32_of_Z 10000) (b32_of_Z 1)) b32_idle_inputs)
    = unit_vector (ops := binary32_ops) 1 /\
  1 = (0 + 1) mod 3.
Proof.
  destruct (pulses_round_robin_until_counter_wraps binary32 binary32_ops
              b32_pwm_20kHz (b32_of_Z 10000) (b32_of_Z 1) b32_idle_inputs
              1 3 0 1) as (Hout & Hout' & _ & Hnext & _).
  - lia.
  - vm_compute. reflexivity.
  - intros i Hi. replace i with 2%nat by lia. vm_compute. reflexivity.
  - vm_compute. reflexivity.
  - split; [exact Hout|]. split; [exact Hout'|].
    apply Hnext. vm_compute. reflexivity.
Defined.

(** * Further properties of the code *)

(** ** [EventCounter]: counting *)

Lemma increments_succ (n : nat) (c : EventCounter) :
  increments (S n) c = snd (increment (increments n c)).
Proof. reflexivity. Qed.

(** X1: [n] calls of [increment] add [n] to the count modulo 2^64; a fresh
    counter therefore reads exactly the number of events as long as that
    number is below 2^64. *)
Theorem EventCounter_counts_events :
  forall (n : nat) (c : EventCounter),
    EventCounter_wf c ->
    get (increments n c) = (get c + Z.of_nat n) mod 2 ^ 64 /\
    EventCounter_wf (increments n c) /\
    get (increments n EventCounter_init) = Z.of_nat n mod 2 ^ 64 /\
    (Z.of_nat n < 2 ^ 64 ->
     get (increments n EventCounter_init) = Z.of_nat n).
Proof.
  assert (Hadd : forall (n : nat) (c : EventCounter),
            EventCounter_wf c ->
            get (increments n c) = (get c + Z.of_nat n) mod 2 ^ 64).
  { induction n as [|n IH]; intros c Hwf.
    - unfold EventCounter_wf, uint64_modulus in Hwf. cbn [increments Nat.iter].
      unfold get. rewrite Z.add_0_r, Z.mod_small; [reflexivity | exact Hwf].
    - rewrite increments_succ. unfold increment, get, uint64_modulus.
      cbn [snd cnt_]. fold (get (increments n c)). rewrite (IH c Hwf).
      rewrite Zplus_mod_idemp_l, Nat2Z.inj_succ. unfold Z.succ.
      rewrite Z.add_assoc. reflexivity. }
  assert (Hinit : EventCounter_wf EventCounter_init).
  { unfold EventCounter_wf, uint64_modulus. cbn. lia. }
  intros n c Hwf. split; [apply Hadd; exact Hwf|]. split.
  - unfold EventCounter_wf, uint64_modulus. fold (get (increments n c)).
    rewrite (Hadd n c Hwf). apply Z.mod_pos_bound. lia.
  - split.
    + rewrite (Hadd n _ Hinit). reflexivity.
    + intros Hn. rewrite (Hadd n _ Hinit). apply Z.mod_small.
      cbn [get cnt_ EventCounter_init]. lia.
Qed.

(** Three events after 2^64 - 2 of them: the count reads 1. *)
Lemma EventCounter_counts_events_witness :
  get (increments 3 (mkEventCounter (2 ^ 64 - 2))) = 1.
Proof.
  apply (EventCounter_counts_events 3 (mkEventCounter (2 ^ 64 - 2))).
  unfold EventCounter_wf, uint64_modulus. cbn. lia.
Defined.

(** ** [BeepingTask]: a released driver stays released *)

(** X7: for every scalar implementation and every task state, once a call
    of [onNextPWMPeriod] has returned [driver_active = false], every later
    call returns the zero vector with [driver_active = false] and leaves
    the task as it was: a released driver is never taken up again, and no
    pulse is commanded while it is released. *)
Theorem driver_released_for_good :
  forall (Scalar : Type) (ops : ScalarOps Scalar) (t : BeepingTask Scalar)
         (inputs : nat -> Vector2 Scalar * Scalar) (k m : nat),
    driver_active_at k t inputs = false ->
    (k <= m)%nat ->
    output_at m t inputs = (Zero, false) /\
    after_periods (S m) t inputs = after_periods k t inputs /\
    pulse_phase (after_periods m t inputs) = None.
Proof.
  intros Scalar ops t inputs k m Hoff Hkm.
  assert (Hm : after_periods m t inputs = after_periods k t inputs).
  { replace m with (k + (m - k))%nat by lia.
    apply released_state_kept. exact Hoff. }
  assert (Htest : (Sof_Z 0 <=? remaining_duration_
                                 (after_periods k t inputs))%S = false).
  { unfold driver_active_at, output_at in Hoff.
    rewrite driver_active_is_first_test in Hoff. exact Hoff. }
  split; [|split].
  - unfold output_at. rewrite Hm.
    rewrite released_call_changes_nothing; [reflexivity|].
    rewrite driver_active_is_first_test. exact Htest.
  - replace (S m) with (k + S (m - k))%nat by lia.
    apply released_state_kept. exact Hoff.
  - rewrite Hm. unfold pulse_phase. rewrite Htest. reflexivity.
Qed.

(** A task past its duration: released at the first call, and at the
    tenth. *)
Lemma driver_released_for_good_witness :
  output_at (ops := exact_ops) 9 exhausted_task idle_inputs =
    (Zero (ops := exact_ops), false).
Proof.
  apply (driver_released_for_good Q exact_ops exhausted_task idle_inputs
           0%nat 9%nat).
  - reflexivity.
  - lia.
Defined.

(** ** [BeepingTask]: when the pulses come *)

Section Tone.
Variable pi : Q.
Variable context : TaskContext Q.
Variables frequency duration : Q.
Variable inputs : nat -> Vector2 Q * Q.

Let T : Q := period (board_pwm context).
Let D : Q :=
  constrain (ops := Q_ops pi) (DurationLimits (ops := Q_ops pi)) duration.
Let E : Q :=
  (1 / constrain (ops := Q_ops pi) (FrequencyLimits (ops := Q_ops pi))
         frequency)%Q.
Let task0 : BeepingTask Q :=
  BeepingTask_new (ops := Q_ops pi) context frequency duration.
Let task (k : nat) : BeepingTask Q :=
  after_periods (ops := Q_ops pi) k task0 inputs.
Let elapsed (k : nat) : Q := (inject_Z (Z.of_nat k) * T)%Q.
Let N (k : nat) : Z := pulses_before (ops := Q_ops pi) k task0 inputs.

(** While every call so far has kept the driver active, the remaining
    duration and the countdown are what the elapsed time and the number of
    pulses make them. *)
Lemma running_state (k : nat) :
  (forall i : nat, (i < k)%nat ->
     driver_active_at (ops := Q_ops pi) i task0 inputs = true) ->
  context_ (task k) = context /\
  excitation_period_ (task k) = E /\
  (remaining_duration_ (task k) == D - elapsed k)%Q /\
  (time_to_next_excitation_ (task k) ==
     E * (1 + inject_Z (N k)) - elapsed k)%Q.
Proof.
  induction k as [|k IH]; intros Hrun.
  - split; [reflexivity|]. split; [reflexivity|].
    unfold task, task0, elapsed, N, D, E; cbn.
    change (inject_Z 1) with 1%Q. change (inject_Z 0) with 0%Q.
    unfold Qdiv. split; ring.
  - destruct IH as (Hctx & Hexc & Hrem & Httn).
    { intros i Hi. apply Hrun. lia. }
    assert (Hs : (elapsed (S k) == elapsed k + T)%Q).
    { unfold elapsed. rewrite Nat2Z.inj_succ. unfold Z.succ.
      rewrite inject_Z_plus. change (inject_Z 1) with 1%Q. ring. }
    pose proof (Hrun k (Nat.lt_succ_diag_r k)) as Hact.
    unfold driver_active_at, output_at in Hact. fold (task k) in Hact.
    rewrite driver_active_is_first_test in Hact.
    unfold N. cbn [pulses_before]. fold (N k). fold (task k).
    unfold task. cbn [after_periods]. fold (task k).
    unfold pulse_phase, onNextPWMPeriod. rewrite Hact, Hctx, Hexc. fold T.
    match goal with
    | |- context [Sle ?a ?b] => destruct (Sle a b)
    end;
      cbn [snd context_ excitation_period_ remaining_duration_
           time_to_next_excitation_];
      (split; [reflexivity|]); (split; [reflexivity|]);
      cbn [Ssub Sadd Q_ops]; rewrite Hrem, Httn, Hs, ?inject_Z_plus;
      change (inject_Z 1) with 1%Q; change (inject_Z 0) with 0%Q;
      split; ring.
Qed.

(** A running call emits a pulse exactly when the countdown, less one PWM
    period, has reached zero. *)
Lemma pulse_iff_countdown_expired (k : nat) :
  driver_active_at (ops := Q_ops pi) k task0 inputs = true ->
  context_ (task k) = context ->
  (N (S k) = N k + 1 /\
   (time_to_next_excitation_ (task k) - T <= 0)%Q) \/
  (N (S k) = N k /\
   (0 < time_to_next_excitation_ (task k) - T)%Q).
Proof.
  intros Hact Hctx.
  unfold driver_active_at, output_at in Hact. fold (task k) in Hact.
  rewrite driver_active_is_first_test in Hact.
  unfold N. cbn [pulses_before]. fold (N k). fold (task k).
  unfold pulse_phase. rewrite Hact, Hctx. fold T.
  match goal with
  | |- context [Sle ?a ?b] => destruct (Sle a b) eqn:Ep
  end.
  - left. apply Q_Sle_true in Ep. split; [reflexivity | exact Ep].
  - right. apply Q_Sle_false in Ep. split; [lia | exact Ep].
Qed.

Lemma excitation_period_positive : (0 < E)%Q.
Proof.
  apply (excitation_period_bounds pi frequency).
Qed.

(** A PWM period at least as long as the excitation period: every call that
    keeps the driver active emits a pulse. *)
Lemma tone_faster_than_pwm (k : nat) :
  (E <= T)%Q ->
  (forall i : nat, (i < k)%nat ->
     driver_active_at (ops := Q_ops pi) i task0 inputs = true) ->
  N k = Z.of_nat k.
Proof.
  intros HET. induction k as [|k IH]; intros Hrun; [reflexivity|].
  assert (Hrun' : forall i : nat, (i < k)%nat ->
            driver_active_at (ops := Q_ops pi) i task0 inputs = true).
  { intros i Hi. apply Hrun. lia. }
  specialize (IH Hrun').
  destruct (running_state k Hrun') as (Hctx & _ & _ & Httn).
  rewrite IH in Httn.
  assert (Hk : (0 <= 1 + inject_Z (Z.of_nat k))%Q).
  { assert (0 <= inject_Z (Z.of_nat k))%Q;
      [change 0%Q with (inject_Z 0); rewrite <- Zle_Qle; lia | lra]. }
  pose proof (Qmult_le_nonneg_l _ _ _ Hk HET) as Hmul.
  destruct (pulse_iff_countdown_expired k
              (Hrun k (Nat.lt_succ_diag_r k)) Hctx)
    as [[HN Hp] | [HN Hp]].
  - rewrite HN, IH. lia.
  - exfalso. rewrite Httn in Hp. unfold elapsed in Hp. lra.
Qed.

End Tone.

(** X11: in exact arithmetic, for a task set up by the constructor whose
    PWM period is at least as long as its excitation period, every call
    that keeps the driver active emits a pulse: after [k] such calls the
    task has emitted [k] pulses. *)
Theorem every_call_pulses_when_pwm_is_slower :
  forall (pi : Q) (context : TaskContext Q) (frequency duration : Q)
         (inputs : nat -> Vector2 Q * Q) (k : nat),
    let t := BeepingTask_new (ops := Q_ops pi) context frequency duration in
    (1 / constrain (ops := Q_ops pi) (FrequencyLimits (ops := Q_ops pi))
           frequency
     <= period (board_pwm context))%Q ->
    (forall i : nat, (i < k)%nat ->
       driver_active_at (ops := Q_ops pi) i t inputs = true) ->
    pulses_before (ops := Q_ops pi) k t inputs = Z.of_nat k.
Proof.
  intros pi context frequency duration inputs k t HET Hrun.
  apply (tone_faster_than_pwm pi context frequency duration inputs k HET Hrun).
Qed.

Lemma tone_on_1s_pwm_running (i : nat) :
  (i < 3)%nat ->
  driver_active_at (ops := exact_ops) i
    (BeepingTask_new (ops := exact_ops) pwm_1s 1000%Q 5%Q) idle_inputs
  = true.
Proof.
  intros Hi.
  do 3 (destruct i as [|i]; [vm_compute; reflexivity|]). lia.
Qed.

(** A 1 kHz tone on a PWM period of one second: three pulses in three
    calls. *)
Lemma every_call_pulses_when_pwm_is_slower_witness :
  pulses_before (ops := exact_ops) 3
    (BeepingTask_new (ops := exact_ops) pwm_1s 1000%Q 5%Q) idle_inputs
  = 3.
Proof.
  apply (every_call_pulses_when_pwm_is_slower Pi_decimal pwm_1s 1000%Q 5%Q
           idle_inputs 3%nat).
  - vm_compute. discriminate.
  - exact tone_on_1s_pwm_running.
Defined.

(** X12: for every scalar arithmetic and every task set up by the
    constructor, a call that emits a pulse returns the unit vector of the
    phase given by the number of pulses emitted before it, modulo 2^32 and
    then modulo 3, with [driver_active = true]; among the first 2^32 pulses
    that is the pulse number modulo 3: first pulse on phase 0, second on
    phase 1, third on phase 2, fourth on phase 0, ... *)
Theorem pulse_phase_is_pulse_number_mod_3 :
  forall (Scalar : Type) (ops : ScalarOps Scalar)
         (context : TaskContext Scalar) (frequency duration : Scalar)
         (inputs : nat -> Vector2 Scalar * Scalar) (k : nat) (p : Z),
    let t := BeepingTask_new context frequency duration in
    pulse_phase (after_periods k t inputs) = Some p ->
    p = (pulses_before k t inputs mod 2 ^ 32) mod 3 /\
    output_at k t inputs = (unit_vector p, true) /\
    (pulses_before k t inputs < 2 ^ 32 ->
     p = pulses_before k t inputs mod 3).
Proof.
  intros Scalar ops context frequency duration inputs k p t Hp.
  destruct (counter_counts_pulses context frequency duration inputs k)
    as [Hcnt Hpos].
  fold t in Hcnt, Hpos.
  pose proof (onNextPWMPeriod_pulse (after_periods k t inputs)
                (fst (inputs k)) (snd (inputs k))) as Hcall.
  rewrite Hp in Hcall. destruct Hcall as (Hout & Hphase & _).
  rewrite Hcnt in Hphase.
  split; [exact Hphase|]. split; [exact Hout|].
  intros Hlt. rewrite Hphase.
  rewrite (Z.mod_small (pulses_before k t inputs) unsigned_modulus);
    [reflexivity|].
  unfold unsigned_modulus. lia.
Qed.

(** Single precision, a PWM period of 50 microseconds, a tone of 10 kHz for
    1 s: call 3 emits the second pulse, on phase 1. *)
Lemma pulse_phase_is_pulse_number_mod_3_witness :
  1 = (pulses_before (ops := binary32_ops) 3
         (BeepingTask_new (ops := binary32_ops) b32_pwm_20kHz
            (b32_of_Z 10000) (b32_of_Z 1)) b32_idle_inputs mod 2 ^ 32)
        mod 3 /\
  output_at (ops := binary32_ops) 3
    (BeepingTask_new (ops := binary32_ops) b32_pwm_20kHz
       (b32_of_Z 10000) (b32_of_Z 1)) b32_idle_inputs
    = (unit_vector (ops := binary32_ops) 1, true).
Proof.
  destruct (pulse_phase_is_pulse_number_mod_3 binary32 binary32_ops
              b32_pwm_20kHz (b32_of_Z 10000) (b32_of_Z 1) b32_idle_inputs
              3 1) as (Hp & Hout & _).
  - vm_compute. reflexivity.
  - split; [exact Hp | exact Hout].
Defined.

(** ** [BeepingTask]: a PWM period that is not positive *)

(** X13: in exact arithmetic, a task set up by the constructor in a context
    whose PWM period is zero or negative never releases the driver and
    never emits a pulse; when its clamped duration is positive, [onMainIRQ]
    on a board with power returns in-progress at every point of the run,
    so the task never reports success. *)
Theorem nonpositive_pwm_period_never_ends :
  forall (pi : Q) (context : TaskContext Q) (frequency duration : Q)
         (inputs : nat -> Vector2 Q * Q) (k : nat) (period_arg : Q),
    let t := BeepingTask_new (ops := Q_ops pi) context frequency duration in
    (period (board_pwm context) <= 0)%Q ->
    driver_active_at (ops := Q_ops pi) k t inputs = true /\
    pulses_before (ops := Q_ops pi) k t inputs = 0 /\
    ((0 < constrain (ops := Q_ops pi) (DurationLimits (ops := Q_ops pi))
            duration)%Q ->
     fst (onMainIRQ (ops := Q_ops pi)
            (after_periods (ops := Q_ops pi) k t inputs) period_arg
            (mkStatus true)) = Result_inProgress).
Proof.
  intros pi context frequency duration inputs k period_arg t HT.
  pose proof (clamped_duration_in_band pi duration) as HD.
  pose proof (excitation_period_positive pi frequency) as HE.
  assert (Hel : forall j : nat,
            (inject_Z (Z.of_nat j) * period (board_pwm context) <= 0)%Q).
  { intros j.
    assert (Hj : (0 <= inject_Z (Z.of_nat j))%Q).
    { change 0%Q with (inject_Z 0). rewrite <- Zle_Qle. lia. }
    pose proof (Qmult_le_nonneg_l _ _ _ Hj HT) as H.
    rewrite Qmult_0_r in H. exact H. }
  assert (Hrun : forall j : nat,
            driver_active_at (ops := Q_ops pi) j t inputs = true).
  { intros j. apply driver_active_iff. specialize (Hel j). lra. }
  split; [apply Hrun|]. split.
  - induction k as [|k IH]; [reflexivity|].
    destruct (running_state pi context frequency duration inputs k
                (fun i _ => Hrun i)) as (Hctx & _ & _ & Httn).
    fold t in Hctx, Httn.
    destruct (pulse_iff_countdown_expired pi context frequency duration
                inputs k (Hrun k) Hctx) as [[_ Hp] | [HN _]].
    + exfalso. fold t in Hp. rewrite Httn, IH in Hp.
      specialize (Hel (S k)). rewrite Nat2Z.inj_succ in Hel.
      unfold Z.succ in Hel. rewrite inject_Z_plus in Hel.
      change (inject_Z 1) with 1%Q in Hel. change (inject_Z 0) with 0%Q in Hp.
      lra.
    + fold t in HN. rewrite HN. exact IH.
  - intros Hpos.
    destruct (remaining_duration_after pi context frequency duration inputs k)
      as [_ Hrem].
    fold t in Hrem. specialize (Hel k).
    assert (Hnot : Sle (ScalarOps := Q_ops pi)
              (remaining_duration_
                 (after_periods (ops := Q_ops pi) k t inputs))
              (Sof_Z (ScalarOps := Q_ops pi) 0) = false).
    { apply Q_Sle_false. cbn [Sof_Z Q_ops]. change (inject_Z 0) with 0%Q.
      destruct Hrem as [Hrem | (_ & Hrem & _)]; lra. }
    unfold onMainIRQ. cbn [power_ok negb]. rewrite Hnot. reflexivity.
Qed.

(** A context with a PWM period of zero, and a task requested for one
    second: still running after 1000 calls. *)
Lemma nonpositive_pwm_period_never_ends_witness :
  driver_active_at (ops := exact_ops) 1000
    (BeepingTask_new (ops := exact_ops)
       (mkTaskContext (mkPWMParameters 0%Q)) 1000%Q 1%Q) idle_inputs
  = true.
Proof.
  apply (nonpositive_pwm_period_never_ends Pi_decimal
           (mkTaskContext (mkPWMParameters 0%Q)) 1000%Q 1%Q idle_inputs
           1000%nat 0%Q).
  discriminate.
Defined.

(** ** [readUniqueID] *)

Lemma std_fill_repeat (bytes : list byte) (value : byte) :
  std_fill bytes value = repeat value (length bytes).
Proof.
  induction bytes as [|b bytes IH]; [reflexivity|].
  cbn. f_equal. exact IH.
Qed.

Lemma skipn_repeat_zero (n m : nat) (value : byte) :
  skipn n (repeat value m) = repeat value (m - n).
Proof.
  revert m. induction n as [|n IH]; intros m.
  - rewrite Nat.sub_0_r. reflexivity.
  - destruct m as [|m]; [reflexivity|]. cbn. apply IH.
Qed.

Lemma memory_bytes_length (memory : Z -> byte) (address : Z) (n : nat) :
  length (memory_bytes memory address n) = n.
Proof.
  unfold memory_bytes. rewrite length_map, length_seq. reflexivity.
Qed.

(** X14: for an array of at least 12 bytes, [readUniqueID] returns the 12
    bytes found at address 0x1FFF7A10 followed by zero bytes up to the
    length of the array; the result has the length of the array and shows
    nothing of what the array held before it was filled. *)
Theorem readUniqueID_id_then_zeros :
  forall (uninitialised : UniqueID) (memory : Z -> byte),
    (12 <= length uninitialised)%nat ->
    readUniqueID uninitialised memory =
      memory_bytes memory 0x1FFF7A10 12 ++
      repeat x00 (length uninitialised - 12) /\
    length (readUniqueID uninitialised memory) = length uninitialised /\
    (forall i : nat, (i < 12)%nat ->
       nth_error (readUniqueID uninitialised memory) i =
         Some (memory (0x1FFF7A10 + Z.of_nat i))) /\
    (forall i : nat, (12 <= i < length uninitialised)%nat ->
       nth_error (readUniqueID uninitialised memory) i = Some x00).
Proof.
  intros uninitialised memory Hlen.
  assert (Heq : readUniqueID uninitialised memory =
                memory_bytes memory 0x1FFF7A10 12 ++
                repeat x00 (length uninitialised - 12)).
  { unfold readUniqueID, std_memcpy.
    rewrite std_fill_repeat, skipn_repeat_zero.
    rewrite firstn_all2; [reflexivity|].
    rewrite memory_bytes_length. apply Nat.le_refl. }
  split; [exact Heq|]. rewrite Heq. split; [|split].
  - rewrite length_app, memory_bytes_length, repeat_length. lia.
  - intros i Hi. rewrite nth_error_app1
      by (rewrite memory_bytes_length; exact Hi).
    unfold memory_bytes. rewrite nth_error_map, nth_error_seq.
    destruct (Nat.ltb_spec i 12) as [_|Hge]; [reflexivity | lia].
  - intros i Hi. rewrite nth_error_app2
      by (rewrite memory_bytes_length; lia).
    rewrite memory_bytes_length. apply nth_error_repeat. lia.
Qed.

(** An array of 16 bytes that held 0xAA everywhere, and a memory that
    holds 0x5A everywhere. *)
Lemma readUniqueID_id_then_zeros_witness :
  readUniqueID (repeat xaa 16) (fun _ => x5a) =
    repeat x5a 12 ++ repeat x00 4.
Proof.
  apply (readUniqueID_id_then_zeros (repeat xaa 16) (fun _ => x5a)).
  cbn. lia.
Defined.

(** ** [setLEDRGB] *)

Lemma uint8_value_range (b : byte) : 0 <= uint8_value b <= 255.
Proof.
  unfold uint8_value. pose proof (Byte.to_N_bounded b). lia.
Qed.

Lemma uint8_value_inj (b b' : byte) :
  uint8_value b = uint8_value b' -> b = b'.
Proof.
  unfold uint8_value. intros H. apply N2Z.inj in H.
  assert (Hs : Some b = Some b').
  { rewrite <- (Byte.of_to_N b), <- (Byte.of_to_N b'), H. reflexivity. }
  injection Hs as Hs. exact Hs.
Qed.

Lemma led_compare_value (b : byte) :
  (uint8_value b * 257) mod 2 ^ 32 = 256 * uint8_value b + uint8_value b.
Proof.
  pose proof (uint8_value_range b). rewrite Z.mod_small; lia.
Qed.

(** X15: for every colour, each compare value that [setLEDRGB] writes is
    the channel byte repeated in both bytes of a 16-bit value, so it lies
    between 0 and 0xFFFF, is 0 only for the byte 0 and 0xFFFF only for the
    byte 255, and is larger for a larger byte; [applicationHaltHook]
    writes full red and no green or blue. *)
Theorem setLEDRGB_scales_bytes_to_16_bits :
  forall red green blue : byte,
    let written := setLEDRGB red green blue in
    CCR2 written = 256 * uint8_value red + uint8_value red /\
    CCR3 written = 256 * uint8_value green + uint8_value green /\
    CCR4 written = 256 * uint8_value blue + uint8_value blue /\
    (0 <= CCR2 written <= 0xFFFF /\ 0 <= CCR3 written <= 0xFFFF /\
     0 <= CCR4 written <= 0xFFFF) /\
    (CCR2 written = 0 <-> red = x00) /\
    (CCR2 written = 0xFFFF <-> red = xff) /\
    (forall red' : byte,
       uint8_value red < uint8_value red' <->
       CCR2 written < CCR2 (setLEDRGB red' green blue)) /\
    applicationHaltHook = mkLEDCompare 0xFFFF 0 0.
Proof.
  intros red green blue written. unfold written, setLEDRGB.
  cbn [CCR2 CCR3 CCR4]. rewrite !led_compare_value.
  pose proof (uint8_value_range red) as Hr.
  pose proof (uint8_value_range green) as Hg.
  pose proof (uint8_value_range blue) as Hb.
  split; [reflexivity|]. split; [reflexivity|]. split; [reflexivity|].
  split; [lia|]. split; [|split; [|split]].
  - split.
    + intros H. apply uint8_value_inj. cbn. lia.
    + intros ->. reflexivity.
  - split.
    + intros H. apply uint8_value_inj. cbn. lia.
    + intros ->. reflexivity.
  - intros red'. rewrite led_compare_value. lia.
  - reflexivity.
Qed.
